(** * elm-pages generator: the build CLI ([generator/src/cli.js]) and the
    directory copier, embedded and verified.

    The first part holds the definitions: the JavaScript string
    operations the CLI uses, JSON values and [JSON.stringify], the route
    functions, the port messages, the dispatcher over an explicit process
    state, the module transform, the compiler subprocess, and the
    directory copier over a file system given as a finite map.  The second
    part holds the facts proved about them.

    JavaScript strings are modelled as [string]; the operations below are
    the instances of [String.prototype.replace], [split] and [join] that the
    CLI uses.  Every one of them only inspects the ASCII characters [/], [.]
    and the letters of [index], so working on bytes instead of UTF-16 code
    units makes no difference to the results. *)

From stdpp Require Import base option list strings gmap fin_maps.
From Stdlib Require Import Ascii ZArith Lia DecimalString.

Local Open Scope string_scope.
Local Open Scope list_scope.
Set Warnings "-register-all".

(** ** JavaScript string primitives *)

Module JsString.

(** [strip_prefix p s] is [Some t] exactly when [s = p ++ t]
    (a match of the literal [p] anchored by [^]). *)
Fixpoint strip_prefix (p s : string) : option string :=
  match p with
  | "" => Some s
  | String a p' =>
      match s with
      | String b s' => if Ascii.eqb a b then strip_prefix p' s' else None
      | "" => None
      end
  end.

(** [strip_suffix suf s] is [Some t] exactly when [s = t ++ suf]
    (a match of the literal [suf] anchored by [$]). *)
Fixpoint strip_suffix (suf s : string) : option string :=
  if String.eqb s suf then Some ""
  else match s with
       | "" => None
       | String c s' => String c <$> strip_suffix suf s'
       end.

(** Whether [s] ends with the literal [suf]. *)
Definition ends_with (suf s : string) : bool :=
  match strip_suffix suf s with
  | Some _ => true
  | None => false
  end.

(** [s.replace(/pat$/, rep)] for a literal [pat] and a replacement without
    [$] patterns. *)
Definition replace_at_end (pat rep s : string) : string :=
  match strip_suffix pat s with
  | Some t => t +:+ rep
  | None => s
  end.

(** [s.replace(pat, rep)] for a string pattern: only the first occurrence
    is replaced. *)
Fixpoint replace_first (pat rep s : string) : string :=
  match strip_prefix pat s with
  | Some rest => rep +:+ rest
  | None =>
      match s with
      | "" => ""
      | String c s' => String c (replace_first pat rep s')
      end
  end.

(** [s.split(sep)] for a one-character separator; the result is never
    empty ([""] splits to [[""]]). *)
Fixpoint split (sep : ascii) (s : string) : list string :=
  match s with
  | "" => [""]
  | String c s' =>
      if Ascii.eqb c sep then "" :: split sep s'
      else match split sep s' with
           | w :: ws => String c w :: ws
           | [] => [String c ""]
           end
  end.

(** [l.join(sep)]. *)
Fixpoint join (sep : string) (l : list string) : string :=
  match l with
  | [] => ""
  | [x] => x
  | x :: l' => x +:+ sep +:+ join sep l'
  end.

(** [s] repeated [n] times. *)
Fixpoint repeat_string (s : string) (n : nat) : string :=
  match n with
  | O => ""
  | S n' => s +:+ repeat_string s n'
  end.

(** The double quote and the newline, as one-character strings. *)
Definition q : string := String (ascii_of_nat 34) "".
Definition nl : string := String (ascii_of_nat 10) "".
Definition backslash : string := String (ascii_of_nat 92) "".

End JsString.

Import JsString.

(** ** JSON values and [JSON.stringify] *)

(** A JSON value as the renderer hands it over the port.  Numbers are the
    integers [JSON.stringify] prints digit by digit (those of magnitude
    below 1e21); an object is the list of its properties in enumeration
    order. *)
Inductive json : Type :=
| JNull
| JBool (b : bool)
| JNum (n : Z)
| JStr (s : string)
| JArr (xs : list json)
| JObj (props : list (string * json)).

Definition hex_digit (n : nat) : ascii :=
  nth n (String.list_ascii_of_string "0123456789abcdef") "0"%char.

(** One character of [QuoteJSONString]: the quote, the backslash and the
    control characters are escaped, every other character (a byte of a
    non-ASCII character included) is kept. *)
Definition quote_char (c : ascii) : string :=
  let n := nat_of_ascii c in
  if Nat.eqb n 34 then backslash +:+ q
  else if Nat.eqb n 92 then backslash +:+ backslash
  else if Nat.eqb n 8 then backslash +:+ "b"
  else if Nat.eqb n 9 then backslash +:+ "t"
  else if Nat.eqb n 10 then backslash +:+ "n"
  else if Nat.eqb n 12 then backslash +:+ "f"
  else if Nat.eqb n 13 then backslash +:+ "r"
  else if Nat.ltb n 32 then
    backslash +:+ "u00" +:+
      String (hex_digit (n / 16)) (String (hex_digit (n mod 16)) "")
  else String c "".

Fixpoint quote_chars (s : string) : string :=
  match s with
  | "" => ""
  | String c s' => quote_char c +:+ quote_chars s'
  end.

Definition quote_json_string (s : string) : string :=
  q +:+ quote_chars s +:+ q.

(** [JSON.stringify(j)] without indentation. *)
Fixpoint stringify (j : json) : string :=
  match j with
  | JNull => "null"
  | JBool true => "true"
  | JBool false => "false"
  | JNum n => NilZero.string_of_int (Z.to_int n)
  | JStr s => quote_json_string s
  | JArr xs => "[" +:+ join "," (map stringify xs) +:+ "]"
  | JObj props =>
      "{" +:+
      join ","
        (map (fun kv => match kv with
                        | (k, v) => quote_json_string k +:+ ":" +:+ stringify v
                        end) props)
      +:+ "}"
  end.

(** ** Routes ([cli.js], lines 97-139) *)

(** [route.replace(/(^\/|\/$)/, "")]: the regular expression has no [g]
    flag, so only its first match is removed: a leading slash when there is
    one, otherwise a trailing slash. *)
Definition cleanRoute (route : string) : string :=
  match strip_prefix "/" route with
  | Some rest => rest
  | None => replace_at_end "/" "" route
  end.

Definition pathToRoot (cleanedRoute : string) : string :=
  if String.eqb cleanedRoute "" then cleanedRoute
  else replace_at_end "." "./"
         (join "/" (map (fun _ => "..") (split "/" cleanedRoute))).

(** [baseRoute] hands the route itself, not the cleaned one, to
    [pathToRoot]. *)
Definition baseRoute (route : string) : string :=
  let cleanedRoute := cleanRoute route in
  if String.eqb cleanedRoute "" then "./" else pathToRoot route.

(** [args.route.replace(/index$/, "")], the [normalizedRoute] of
    [outputString] (line 148). *)
Definition normalizedRoute (route : string) : string :=
  replace_at_end "index" "" route.

(** ** Port messages (the typedefs at the end of [cli.js]) *)

Inductive SeoTag : Type :=
| HeadTag (name : string) (attributes : list (list string))
| JsonLdTag (contents : json).

(** The [Arg] typedef: the payload of a [PageProgress] message. *)
Module Arg.
Record t : Type := mk {
  body : string;
  head : list SeoTag;
  errors : list json;
  contentJson : json;
  html : string;
  route : string;
  title : string
}.
End Arg.

(** One entry of [filesToGenerate]. *)
Module GenFile.
Record t : Type := mk { path : string; content : string }.
End GenFile.

(** [fromElm.args[0]]: a page record, the initial data, or plain data. *)
Inductive Payload : Type :=
| PPage (page : Arg.t)
| PInitialData (manifest : json) (filesToGenerate : list GenFile.t)
| PData (j : json).

(** A message received on [toJsPort].  [command] and [tag] are [None] when
    the property is absent; [value] likewise.  [args] is the array of the
    typedefs. *)
Record FromElm : Type := mkFromElm {
  command : option string;
  tag : option string;
  value : option json;
  args : list Payload
}.

(** ** The process state the dispatcher acts on *)

(** What [console.log] and [console.error] were handed. *)
Inductive ConsoleArg : Type :=
| CText (s : string)
| CValue (v : option json)
| CPayload (p : option Payload)
| CMessage (m : FromElm).

(** Requests made to the file-system helpers. *)
Inductive FsRequest : Type :=
| TryMkdir (dir : string)
| WriteFile (file : string) (data : string).

(** The module-level flag [foundErrors], the two console streams, and the
    asynchronous file-system tasks started so far.  Each task is the
    sequence of requests one [async] call makes, in its program order; the
    event loop interleaves tasks freely, so nothing is read off the order
    of requests of different tasks. *)
Record World : Type := mkWorld {
  foundErrors : bool;
  stdout : list ConsoleArg;
  stderr : list ConsoleArg;
  tasks : list (list FsRequest)
}.

(** [let foundErrors = false] (line 17). *)
Definition initialWorld : World :=
  {| foundErrors := false; stdout := []; stderr := []; tasks := [] |}.

Definition console_log (a : ConsoleArg) (w : World) : World :=
  {| foundErrors := foundErrors w; stdout := stdout w ++ [a];
     stderr := stderr w; tasks := tasks w |}.

Definition console_error (a : ConsoleArg) (w : World) : World :=
  {| foundErrors := foundErrors w; stdout := stdout w;
     stderr := stderr w ++ [a]; tasks := tasks w |}.

Definition spawn_task (t : list FsRequest) (w : World) : World :=
  {| foundErrors := foundErrors w; stdout := stdout w;
     stderr := stderr w; tasks := tasks w ++ [t] |}.

Definition set_foundErrors (b : bool) (w : World) : World :=
  {| foundErrors := b; stdout := stdout w;
     stderr := stderr w; tasks := tasks w |}.

(** How a call of the port handler ends. *)
Inductive Completion : Type :=
| Normal
| Throw (message : string).

(** Paths are compared the way the file system resolves them: empty
    components (doubled slashes) and [.] components are skipped.  The
    paths of the dispatcher are relative to the working directory; a [..]
    component is kept as it is. *)
Definition resolve (p : string) : list string :=
  filter (fun seg => seg <> "" /\ seg <> ".") (split "/" p).

Section Cli.

(** What [cli.js] imports and this development leaves open: the version of
    package.json, [seo-renderer.js], [generate-manifest.js], and Node's
    [path.dirname] and [path.join]. *)
Variable cliVersion : string.
Variable seo_toString : list SeoTag -> string.
Variable generateManifest : json -> json.
Variable path_dirname : string -> string.
Variable path_join : string -> string -> string.

(** *** [wrapHtml] (lines 265-308) *)

Definition wrapHtml (fromElm : Arg.t) : string :=
  String.concat nl
    [ "<!DOCTYPE html>";
      "  <html lang=" +:+ q +:+ "en" +:+ q +:+ ">";
      "  <head>";
      "    <link rel=" +:+ q +:+ "preload" +:+ q +:+ " href=" +:+ q +:+ "content.json" +:+ q +:+ " as=" +:+ q +:+ "fetch" +:+ q +:+ " crossorigin=" +:+ q +:+ q +:+ ">";
      "    <link rel=" +:+ q +:+ "stylesheet" +:+ q +:+ " href=" +:+ q +:+ "/style.css" +:+ q +:+ "></link>";
      "    <link rel=" +:+ q +:+ "preload" +:+ q +:+ " href=" +:+ q +:+ "/elm-pages.js" +:+ q +:+ " as=" +:+ q +:+ "script" +:+ q +:+ ">";
      "    <link rel=" +:+ q +:+ "preload" +:+ q +:+ " href=" +:+ q +:+ "/index.js" +:+ q +:+ " as=" +:+ q +:+ "script" +:+ q +:+ ">";
      "    <link rel=" +:+ q +:+ "preload" +:+ q +:+ " href=" +:+ q +:+ "/elm.js" +:+ q +:+ " as=" +:+ q +:+ "script" +:+ q +:+ ">";
      "    <link rel=" +:+ q +:+ "preload" +:+ q +:+ " href=" +:+ q +:+ "/elm.js" +:+ q +:+ " as=" +:+ q +:+ "script" +:+ q +:+ ">";
      "    <script defer=" +:+ q +:+ "defer" +:+ q +:+ " src=" +:+ q +:+ "/elm.js" +:+ q +:+ " type=" +:+ q +:+ "module" +:+ q +:+ "></script>";
      "    <script defer=" +:+ q +:+ "defer" +:+ q +:+ " src=" +:+ q +:+ "/elm-pages.js" +:+ q +:+ " type=" +:+ q +:+ "module" +:+ q +:+ "></script>";
      "    <base href=" +:+ q +:+ baseRoute (Arg.route fromElm) +:+ q +:+ ">";
      "    <meta charset=" +:+ q +:+ "UTF-8" +:+ q +:+ ">";
      "    <meta name=" +:+ q +:+ "viewport" +:+ q +:+ " content=" +:+ q +:+ "width=device-width,initial-scale=1" +:+ q +:+ ">";
      "    <script>";
      "    if (" +:+ q +:+ "serviceWorker" +:+ q +:+ " in navigator) {";
      "      window.addEventListener(" +:+ q +:+ "load" +:+ q +:+ ", () => {";
      "        navigator.serviceWorker.getRegistrations().then(function(registrations) {";
      "          for (let registration of registrations) {";
      "            registration.unregister()";
      "          } ";
      "        })";
      "      });";
      "    }";
      "    </script>";
      "    <title>" +:+ Arg.title fromElm +:+ "</title>";
      "    <meta name=" +:+ q +:+ "generator" +:+ q +:+ " content=" +:+ q +:+ "elm-pages v" +:+ cliVersion +:+ q +:+ ">";
      "    <link rel=" +:+ q +:+ "manifest" +:+ q +:+ " href=" +:+ q +:+ "manifest.json" +:+ q +:+ ">";
      "    <meta name=" +:+ q +:+ "mobile-web-app-capable" +:+ q +:+ " content=" +:+ q +:+ "yes" +:+ q +:+ ">";
      "    <meta name=" +:+ q +:+ "theme-color" +:+ q +:+ " content=" +:+ q +:+ "#ffffff" +:+ q +:+ ">";
      "    <meta name=" +:+ q +:+ "apple-mobile-web-app-capable" +:+ q +:+ " content=" +:+ q +:+ "yes" +:+ q +:+ ">";
      "    <meta name=" +:+ q +:+ "apple-mobile-web-app-status-bar-style" +:+ q +:+ " content=" +:+ q +:+ "black-translucent" +:+ q +:+ ">";
      "";
      "    " +:+ seo_toString (Arg.head fromElm);
      "    </head>";
      "    <body>";
      "      <div data-url=" +:+ q +:+ q +:+ " display=" +:+ q +:+ "none" +:+ q +:+ "></div>";
      "      " +:+ Arg.html fromElm;
      "    </body>";
      "  </html>";
      "  " ].

(** *** [outputString] (lines 141-156) *)

(** The object [contentJson] of [outputString]: [body] then [staticData]. *)
Definition contentJsonObject (a : Arg.t) : json :=
  JObj [("body", JStr (Arg.body a)); ("staticData", Arg.contentJson a)].

Definition indexHtmlPath (a : Arg.t) : string :=
  "dist/" +:+ normalizedRoute (Arg.route a) +:+ "/index.html".

Definition contentJsonPath (a : Arg.t) : string :=
  "dist/" +:+ normalizedRoute (Arg.route a) +:+ "/content.json".

(** Modelled from the spec: [tryMkdir] of dir-helpers.js is not among the
    sources; it "ensures the directory exists", so the [await] on it
    resolves and the two writes that follow it are requested. *)
Definition outputString_task (a : Arg.t) : list FsRequest :=
  [ TryMkdir ("./dist/" +:+ normalizedRoute (Arg.route a));
    WriteFile (indexHtmlPath a) (wrapHtml a);
    WriteFile (contentJsonPath a) (stringify (contentJsonObject a)) ].

Definition outputString (a : Arg.t) (w : World) : World :=
  spawn_task (outputString_task a)
    (console_log (CText ("Pre-rendered /" +:+ Arg.route a)) w).

(** *** [generateFiles] (lines 88-95) *)

Definition generateFile_task (f : GenFile.t) : list FsRequest :=
  let fullPath := "dist/" +:+ GenFile.path f in
  [ TryMkdir (path_dirname fullPath); WriteFile fullPath (GenFile.content f) ].

Definition generateFile (w : World) (f : GenFile.t) : World :=
  spawn_task (generateFile_task f)
    (console_log (CText ("Generating file /" +:+ GenFile.path f)) w).

Definition generateFiles (filesToGenerate : list GenFile.t) (w : World) : World :=
  foldl generateFile w filesToGenerate.

(** *** The [toJsPort] subscriber (lines 63-81) *)

Definition is_string (expected : string) (actual : option string) : bool :=
  match actual with
  | Some s => String.eqb s expected
  | None => false
  end.

(** The typedefs give each tag its payload.  With a payload of another
    shape the first property read on an undefined value raises a
    TypeError, which ends the process; such messages are outside the
    typedefs and the model stops at the error. *)
Definition typeError : Completion := Throw "TypeError".

Definition toJsPort_handler (w : World) (fromElm : FromElm) : World * Completion :=
  if is_string "log" (command fromElm) then
    (console_log (CValue (value fromElm)) w, Normal)
  else if is_string "InitialData" (tag fromElm) then
    match args fromElm with
    | PInitialData manifest filesToGenerate :: _ =>
        (generateFiles filesToGenerate
           (spawn_task
              [WriteFile "dist/manifest.json" (stringify (generateManifest manifest))]
              w),
         Normal)
    | _ => (w, typeError)
    end
  else if is_string "PageProgress" (tag fromElm) then
    match args fromElm with
    | PPage page :: _ => (outputString page w, Normal)
    | _ => (w, typeError)
    end
  else if is_string "Errors" (tag fromElm) then
    (set_foundErrors true (console_error (CPayload (hd_error (args fromElm))) w),
     Normal)
  else
    (console_log (CMessage fromElm) w, Throw "Unknown port tag.").

(** The message is handled by the [Errors] branch: it is not a [log]
    command and its tag is [Errors] (a tag is one string, so the two tag
    tests before it fail). *)
Definition is_Errors (fromElm : FromElm) : bool :=
  negb (is_string "log" (command fromElm)) && is_string "Errors" (tag fromElm).

(** The [PageProgress] typedef: [{ tag : 'PageProgress'; args : Arg[] }]. *)
Definition pageProgress (page : Arg.t) : FromElm :=
  {| command := None; tag := Some "PageProgress"; value := None;
     args := [PPage page] |}.

(** Messages are delivered in order; a throwing handler ends the process. *)
Fixpoint dispatch (w : World) (messages : list FromElm) : World * Completion :=
  match messages with
  | [] => (w, Normal)
  | m :: rest =>
      match toJsPort_handler w m with
      | (w', Normal) => dispatch w' rest
      | (w', Throw e) => (w', Throw e)
      end
  end.

(** The [beforeExit] listener (lines 48-54): the exit code once the
    channel has closed and no work is left. *)
Definition beforeExit (w : World) : Z :=
  if foundErrors w then 1 else 0.

(** [runElmApp] on the messages the renderer emits: the final state and
    the exit code of the process when every file-system task that was
    started is fulfilled (an uncaught exception exits with 1).  The tasks
    are not run here: were one of them rejected, the listener of
    [unhandledRejection] (lines 18-21) would end the process with 1
    whatever the flag holds. *)
Definition runElmApp (messages : list FromElm) : World * Z :=
  match dispatch initialWorld messages with
  | (w, Normal) => (w, beforeExit w)
  | (w, Throw _) => (w, 1%Z)
  end.

(** The files written by the tasks of a state: every [WriteFile] request. *)
Definition writes_of (t : list FsRequest) : list (string * string) :=
  omap (fun r => match r with
                 | WriteFile f d => Some (f, d)
                 | TryMkdir _ => None
                 end) t.

Definition written (w : World) : list (string * string) :=
  concat (map writes_of (tasks w)).

(** *** [elmToEsm] (lines 107-118) *)

Definition marker : string := "}(this));".

Definition esmHeader : string := nl +:+ "const scope = {};" +:+ nl.
Definition esmFooter : string := "export const { Elm } = scope;" +:+ nl +:+ nl.

Definition elmToEsm_text (elmEs3 : string) : string :=
  esmHeader +:+ replace_first marker "}(scope));" elmEs3 +:+ esmFooter.

(** The files of the working tree by path; [readFile] of a missing file
    rejects and nothing is written. *)
Definition elmToEsm (elmPath : string) (files : gmap string string)
  : option (gmap string string) :=
  match files !! elmPath with
  | Some elmEs3 => Some (<[elmPath := elmToEsm_text elmEs3]> files)
  | None => None
  end.

(** *** [spawnElmMake] (lines 166-194) *)

Inductive ProcEvent : Type :=
| EvRmSync (file : string)
| EvSpawn (cmd : string) (argv : list string) (cwd : option string)
| EvResolve
| EvReject
| EvProcessExit (code : Z).

(** What the environment answers during one invocation: whether the output
    file is there before the spawn, the code of the [close] event ([None]
    for [null], a subprocess killed by a signal), and whether the output
    file is there when the subprocess has closed. *)
Record ElmMakeRun : Type := mkElmMakeRun {
  existsBefore : bool;
  closeCode : option Z;
  existsAfter : bool
}.

(** [cwd ? path.join(cwd, outputPath) : outputPath]; the empty string is
    falsy. *)
Definition fullOutputPath (outputPath : string) (cwd : option string) : string :=
  match cwd with
  | Some dir => if String.eqb dir "" then outputPath else path_join dir outputPath
  | None => outputPath
  end.

(** [code == 0]. *)
Definition code_is_zero (code : option Z) : bool :=
  match code with
  | Some c => Z.eqb c 0
  | None => false
  end.

Definition on_close (code : option Z) (fileOutputExists : bool) : list ProcEvent :=
  if code_is_zero code && fileOutputExists then [EvResolve]
  else [EvReject; EvProcessExit 1].

Definition spawnElmMake (elmEntrypointPath outputPath : string)
    (cwd : option string) (env : ElmMakeRun) : list ProcEvent :=
  (if existsBefore env then [EvRmSync (fullOutputPath outputPath cwd)] else [])
  ++ [EvSpawn "elm-optimize-level-2" [elmEntrypointPath; "--output"; outputPath] cwd]
  ++ on_close (closeCode env) (existsAfter env).

Definition is_spawn (e : ProcEvent) : bool :=
  match e with EvSpawn _ _ _ => true | _ => false end.

Definition succeeded (events : list ProcEvent) : bool :=
  match last events with Some EvResolve => true | _ => false end.

End Cli.

(** ** The directory copier ([copyDir] and [copyDirHelp]) *)

Module CopyDir.

(** A file system maps a path, the list of its component names from the
    root, to what is there.  [path.join(dir, name)], for a [name] that
    [readdir] returned, is the path [dir ++ [name]]. *)
Inductive node : Type :=
| File (data : string)
| Dir.

Abbreviation fsys := (gmap (list string) node).

Inductive FsError : Type :=
| ENOENT (p : list string)
| EEXIST (p : list string)
| ENOTDIR (p : list string)
| EISDIR (p : list string).

(** The file system and the rejections of the promises nobody awaits. *)
Abbreviation state := (fsys * list FsError)%type.

(** The root is a directory, and whatever exists lies in a directory. *)
Definition wf (fs : fsys) : Prop :=
  fs !! [] = Some Dir /\
  forall p c, is_Some (fs !! (p ++ [c])) -> fs !! p = Some Dir.

Definition parent (p : list string) : list string := removelast p.

(** [fsSync.existsSync(p) && fsSync.statSync(p).isDirectory()]. *)
Definition isDirectory (fs : fsys) (p : list string) : bool :=
  match fs !! p with
  | Some Dir => true
  | _ => false
  end.

(** [child_name dir p] is [Some c] exactly when [p = dir ++ [c]]. *)
Fixpoint child_name (dir p : list string) : option string :=
  match dir, p with
  | [], [c] => Some c
  | a :: dir', b :: p' => if decide (a = b) then child_name dir' p' else None
  | _, _ => None
  end.

(** [fs.readdir(p)]: the names of the entries of a directory, listed in
    the order of the map, which stands for whatever order the file system
    lists them in. *)
Definition readdir (fs : fsys) (p : list string) : FsError + list string :=
  match fs !! p with
  | Some Dir => inr (omap (fun kv => child_name p kv.1) (map_to_list fs))
  | Some (File _) => inl (ENOTDIR p)
  | None => inl (ENOENT p)
  end.

(** [fs.mkdir(p)] without [recursive]: the directory must not exist and
    its parent must. *)
Definition mkdir (p : list string) (fs : fsys) : FsError + fsys :=
  match fs !! p with
  | Some _ => inl (EEXIST p)
  | None =>
      match fs !! parent p with
      | Some Dir => inr (<[p := Dir]> fs)
      | Some (File _) => inl (ENOTDIR p)
      | None => inl (ENOENT p)
      end
  end.

(** [fs.copyFile(src, dest)]: [src] must be a file and [dest] must lie in
    an existing directory; an existing file at [dest] is overwritten. *)
Definition copyFile (src dest : list string) (fs : fsys) : FsError + fsys :=
  match fs !! src with
  | None => inl (ENOENT src)
  | Some Dir => inl (EISDIR src)
  | Some (File data) =>
      match fs !! dest with
      | Some Dir => inl (EISDIR dest)
      | _ =>
          match fs !! parent dest with
          | Some Dir => inr (<[dest := File data]> fs)
          | Some (File _) => inl (ENOTDIR dest)
          | None => inl (ENOENT dest)
          end
      end
  end.

(** [items.forEach(f)]: every item starts its own task; a task that
    rejects does not stop the others.  [None] only when the fuel of a call
    ran out. *)
Fixpoint forEach (f : string -> state -> option state)
    (items : list string) (st : state) : option state :=
  match items with
  | [] => Some st
  | item :: rest =>
      match f item st with
      | Some st' => forEach f rest st'
      | None => None
      end
  end.

(** [copyDirHelp(src, dest)].  The tasks started by [forEach] work on
    different children; they are run here one after the other (a child's
    subtree before the next child).  [fuel] bounds the recursion depth.
    Paths have no length limit here: for a destination inside the source
    every round finds the directory the round before it made, so no fuel
    is enough, where the file system ends the recursion with
    ENAMETOOLONG.  The facts below are about a source and a destination
    that lie apart. *)
Fixpoint copyDirHelp (fuel : nat) (src dest : list string) (st : state)
  : option state :=
  match fuel with
  | O => None
  | S fuel' =>
      let '(fs, rejected) := st in
      if isDirectory fs src then
        match mkdir dest fs with
        | inl e => Some (fs, rejected ++ [e])
        | inr fs1 =>
            match readdir fs1 src with
            | inl e => Some (fs1, rejected ++ [e])
            | inr items =>
                forEach
                  (fun childItemName =>
                     copyDirHelp fuel' (src ++ [childItemName]) (dest ++ [childItemName]))
                  items (fs1, rejected)
            end
        end
      else
        match copyFile src dest fs with
        | inl e => Some (fs, rejected ++ [e])
        | inr fs1 => Some (fs1, rejected)
        end
  end.

(** The exported [copyDir(srcDirectory, destDir)]. *)
Definition copyDir (fuel : nat) (srcDirectory destDir : list string) (st : state)
  : option state :=
  let '(fs, rejected) := st in
  match readdir fs srcDirectory with
  | inl e => Some (fs, rejected ++ [e])
  | inr items =>
      forEach
        (fun childItemName =>
           copyDirHelp fuel (srcDirectory ++ [childItemName]) (destDir ++ [childItemName]))
        items st
  end.

(** The length of the longest path of the file system. *)
Definition height (fs : fsys) : nat :=
  max_list (map (fun kv => length kv.1) (map_to_list fs)).

(** Under [dest] the file system [fs1] has exactly what [fs0] has under
    [src]: the same paths, directories where there are directories and
    files of the same contents where there are files. *)
Definition mirrors (fs0 : fsys) (src dest : list string) (fs1 : fsys) : Prop :=
  forall rel, rel <> [] -> fs1 !! (dest ++ rel) = fs0 !! (src ++ rel).

(** Neither path lies under the other. *)
Definition apart (src dest : list string) : Prop :=
  ~ src `prefix_of` dest /\ ~ dest `prefix_of` src.

(** The contract of a call [copyDirHelp fuel src (dir ++ [name])] on a
    source of depth at most [depth]: started where the source exists, the
    directory [dir] exists and holds no [name] yet, it rejects nothing and
    leaves under [dir ++ [name]] what is under [src], touching no other
    path. *)
Definition copies (fuel depth : nat) : Prop :=
  forall (src dir : list string) (name : string) (fs : fsys)
         (rejected : list FsError),
    wf fs ->
    apart src (dir ++ [name]) ->
    is_Some (fs !! src) ->
    fs !! dir = Some Dir ->
    fs !! (dir ++ [name]) = None ->
    (forall rel, is_Some (fs !! (src ++ rel)) -> length rel <= depth) ->
    exists fs',
      copyDirHelp fuel src (dir ++ [name]) (fs, rejected) = Some (fs', rejected) /\
      wf fs' /\
      (forall rel, fs' !! ((dir ++ [name]) ++ rel) = fs !! (src ++ rel)) /\
      (forall p, ~ (dir ++ [name]) `prefix_of` p -> fs' !! p = fs !! p).

(** A check of [wf] that computes. *)
Definition wf_check (fs : fsys) : bool :=
  isDirectory fs [] &&
  forallb (fun kv => match kv.1 with
                     | [] => true
                     | _ :: _ => isDirectory fs (parent kv.1)
                     end) (map_to_list fs).

(** A site with one image, and no output directory yet. *)
Definition images_only : fsys :=
  <[ ["images"; "logo.png"] := File "PNG" ]>
    (<[ ["images"] := Dir ]> (<[ [] := Dir ]> ∅)).

(** The same site with an empty output directory. *)
Definition images_and_out : fsys := <[ ["out"] := Dir ]> images_only.

End CopyDir.

(** ** Sample inputs *)

Definition sample_page (route : string) : Arg.t :=
  {| Arg.body := "# hi"; Arg.head := []; Arg.errors := [];
     Arg.contentJson := JObj [("a", JNum 1)]; Arg.html := "<p>hi</p>";
     Arg.route := route; Arg.title := "Hello" |}.

Definition sample_errors : FromElm :=
  {| command := None; tag := Some "Errors"; value := None;
     args := [PData (JStr "Missing content")] |}.

Definition sample_log : FromElm :=
  {| command := Some "log"; tag := None; value := Some (JStr "Running");
     args := [] |}.

Definition sample_seo (tags : list SeoTag) : string := "".
Definition sample_manifest (config : json) : json := config.
Definition sample_dirname (p : string) : string := "dist".

(** ** Further definitions for [cli.js] *)

(** Whether the literal [pat] occurs in [s]. *)
Fixpoint contains (pat s : string) : bool :=
  match strip_prefix pat s with
  | Some _ => true
  | None =>
      match s with
      | "" => false
      | String _ s' => contains pat s'
      end
  end.

(** An [InitialData] message: [{ tag : 'InitialData'; args : [{ manifest,
    filesToGenerate }] }]. *)
Definition initialData (manifest : json) (filesToGenerate : list GenFile.t)
  : FromElm :=
  {| command := None; tag := Some "InitialData"; value := None;
     args := [PInitialData manifest filesToGenerate] |}.

(** The message reaches the last branch of the subscriber: it is not a
    [log] command and its tag is none of the three the subscriber knows. *)
Definition is_unknown (fromElm : FromElm) : bool :=
  negb (is_string "log" (command fromElm)) &&
  negb (is_string "InitialData" (tag fromElm)) &&
  negb (is_string "PageProgress" (tag fromElm)) &&
  negb (is_string "Errors" (tag fromElm)).

(** The directory of a page below the working directory, as the file
    system resolves it. *)
Definition pageDirectory (route : string) : list string :=
  "dist" :: resolve (normalizedRoute route).

(** ** Further definitions for the directory copier *)

(** From [st] to [st'] nothing was taken away: every path is still there,
    every directory is still a directory, the rejections so far are still
    listed first, and a well-formed file system stayed well formed. *)
Definition only_adds (st st' : CopyDir.state) : Prop :=
  (forall p, is_Some (st.1 !! p) -> is_Some (st'.1 !! p)) /\
  (forall p, st.1 !! p = Some CopyDir.Dir -> st'.1 !! p = Some CopyDir.Dir) /\
  st.2 `prefix_of` st'.2 /\
  (CopyDir.wf st.1 -> CopyDir.wf st'.1).

(** ** The example site ([examples/docs/src/Main.elm]) *)

Module Main.

Section Site.

(** What the site imports and this development leaves open: page paths
    with [PagePath.toString], dates, the record of [Metadata.Article] with
    the fields the site reads, and the metadata of pages that are not
    articles. *)
Variable PagePath : Type.
Variable PagePath_toString : PagePath -> string.
Variable Date : Type.
Variable ArticleMetadata : Type.
Variable article_draft : ArticleMetadata -> bool.
Variable article_title : ArticleMetadata -> string.
Variable article_description : ArticleMetadata -> string.
Variable article_author_name : ArticleMetadata -> string.
Variable article_published : ArticleMetadata -> Date.
Variable OtherMetadata : Type.

Inductive Metadata : Type :=
| Article (article : ArticleMetadata)
| NotArticle (other : OtherMetadata).

Record Page : Type := mkPage {
  path : PagePath;
  frontmatter : Metadata;
  body : string
}.

(** [Rss.Date], the constructor the site uses for [pubDate]. *)
Inductive RssDateOrTime : Type :=
| RssDate (date : Date).

Record RssItem : Type := mkRssItem {
  title : string;
  description : string;
  url : string;
  categories : list string;
  author : string;
  pubDate : RssDateOrTime;
  content : option string
}.

Record SitemapEntry : Type := mkSitemapEntry {
  sitemap_path : string;
  lastMod : option string
}.

Definition metadataToRssItem (page : Page) : option RssItem :=
  match frontmatter page with
  | Article article =>
      if article_draft article then None
      else
        Some {| title := article_title article;
                description := article_description article;
                url := PagePath_toString (path page);
                categories := [];
                author := article_author_name article;
                pubDate := RssDate (article_published article);
                content := None |}
  | _ => None
  end.

Definition metadataToSitemapEntry (siteMetadata : list Page) : list SitemapEntry :=
  map (fun page =>
         {| sitemap_path := PagePath_toString (path page); lastMod := None |})
    (List.filter
       (fun page =>
          match frontmatter page with
          | Article articleData => negb (article_draft articleData)
          | _ => true
          end)
       siteMetadata).

Record Model : Type := mkModel { showMobileMenu : bool }.

Record PageChange : Type := mkPageChange {
  change_path : PagePath;
  query : option string;
  fragment : option string
}.

Inductive Msg : Type :=
| OnPageChange (page : PageChange)
| ToggleMobileMenu.

(** The commands of the site: [Cmd.none] is the only one it issues. *)
Inductive Cmd : Type :=
| Cmd_none.

Definition update (msg : Msg) (model : Model) : Model * Cmd :=
  match msg with
  | OnPageChange page => ({| showMobileMenu := false |}, Cmd_none)
  | ToggleMobileMenu =>
      ({| showMobileMenu := negb (showMobileMenu model) |}, Cmd_none)
  end.

(** The model after a sequence of messages, from the first to the last. *)
Definition updates (msgs : list Msg) (model : Model) : Model :=
  foldl (fun m msg => (update msg m).1) model msgs.

End Site.

(** A sample site: paths are strings, dates are numbers, an article is
    its draft flag and its title. *)
Definition sample_article (draft : bool) (title : string)
  : Metadata (bool * string) unit :=
  Article (bool * string) unit (draft, title).

Definition sample_site_page (p : string) (draft : bool) (title : string)
  : Page string (bool * string) unit :=
  {| path := p; frontmatter := sample_article draft title; body := "" |}.

End Main.

(** ** The build pipeline of [cli.js] *)

(** *** The patch of [compileCliApp] (lines 217-224) *)

(** The regular expression
    [/return \$elm\$json\$Json\$Encode\$string\(.REPLACE_ME_WITH_JSON_STRINGIFY.\)/g]:
    two literal texts and a closing parenthesis, with one arbitrary
    character before and after the second text.  The characters of the
    compiled program are read as code units below 256. *)
Definition stubCall : string := "return $elm$json$Json$Encode$string(".
Definition stubArgument : string := "REPLACE_ME_WITH_JSON_STRINGIFY".

(** [.] without the [s] flag matches any character but a line
    terminator. *)
Definition is_line_terminator (c : ascii) : bool :=
  Nat.eqb (nat_of_ascii c) 10 || Nat.eqb (nat_of_ascii c) 13.

(** A match of the expression at the start of [s]: what follows it. *)
Definition match_stub (s : string) : option string :=
  match strip_prefix stubCall s with
  | Some (String c1 s1) =>
      if is_line_terminator c1 then None
      else
        match strip_prefix stubArgument s1 with
        | Some (String c2 s2) =>
            if is_line_terminator c2 then None else strip_prefix ")" s2
        | _ => None
        end
  | _ => None
  end.

(** Every match has this many characters. *)
Definition stub_length : nat :=
  String.length stubCall + 1 + String.length stubArgument + 1 + 1.

(** [text.replace(/.../g, "return x")]: the matches are looked for from
    left to right, the search going on behind each match; [skip] counts
    the characters of the current match still to pass over. *)
Fixpoint replace_stubs_from (skip : nat) (s : string) : string :=
  match s with
  | "" => ""
  | String c s' =>
      match skip with
      | S k => replace_stubs_from k s'
      | O =>
          match match_stub s with
          | Some _ => "return x" +:+ replace_stubs_from (stub_length - 1) s'
          | None => String c (replace_stubs_from 0 s')
          end
      end
  end.

Definition replace_stubs (elmFileContent : string) : string :=
  replace_stubs_from 0 elmFileContent.

(** Whether a match starts at one of the first [n] characters of [s]. *)
Fixpoint stub_starts_within (n : nat) (s : string) : bool :=
  match n with
  | O => false
  | S n' =>
      match match_stub s with
      | Some _ => true
      | None =>
          match s with
          | "" => false
          | String _ s' => stub_starts_within n' s'
          end
      end
  end.

(** *** [run] (lines 29-45) with [compileCliApp], [copyAssets] and the
    start of [compileElm] *)

(** A call of a helper of dir-helpers.js that is not awaited. *)
Inductive HelperCall : Type :=
| HTryMkdir (dir : string)
| HWriteFile (file data : string)
| HCopyFile (src dest : string)
| HCopyDirFlat (src dest : string)
| HCopyDirNested (src dest : string).

Inductive RunEvent : Type :=
| Call (helper : HelperCall)
| Generate
| Proc (e : ProcEvent)
| ReadFile (file : string)
| WriteBack (file data : string)
| ConsoleError
| StartElmApp.

(** What the environment answers during [run], up to the start of the
    renderer: whether [codegen.generate()] resolves, the run of the
    compiler on the support program, the compiled support program as
    [readFile] returns it ([None] when it rejects), whether writing it
    back resolves, and whether [dist/elm.js] is there already. *)
Record RunEnv : Type := mkRunEnv {
  codegenResolves : bool;
  cliRun : ElmMakeRun;
  compiledCli : option string;
  writeBackResolves : bool;
  staleElmJs : bool
}.

Section Pipeline.

(** [path.join], the path [ELM_FILE_PATH] it is used to build (lines
    23-27), and the text of index-template.js. *)
Variable path_join : string -> string -> string.
Variable ELM_FILE_PATH : string.
Variable indexTemplate : string.

(** The listener of [unhandledRejection] (lines 18-21). *)
Definition unhandledRejection : list RunEvent :=
  [ConsoleError; Proc (EvProcessExit 1)].

(** The part of [spawnElmMake] that runs when it is called: the stale
    output is removed and the compiler is spawned. *)
Definition spawnElmMake_start (elmEntrypointPath outputPath : string)
    (cwd : option string) (stale : bool) : list ProcEvent :=
  (if stale then [EvRmSync (fullOutputPath path_join outputPath cwd)] else [])
  ++ [EvSpawn "elm-optimize-level-2" [elmEntrypointPath; "--output"; outputPath] cwd].

Definition copyAssets : list RunEvent :=
  [ Call (HWriteFile "dist/elm-pages.js" indexTemplate);
    Call (HCopyFile "beta-index.js" "dist/index.js");
    Call (HCopyFile "beta-style.css" "dist/style.css");
    Call (HCopyDirFlat "static" "dist");
    Call (HTryMkdir "dist/images");
    Call (HCopyDirNested "images" "dist/images") ].

(** [run], up to the call of [runElmApp]: each [await] either goes on or
    ends the process (a rejection nobody handles reaches the listener; a
    failed compile exits in [spawnElmMake] itself).  [compileElm] is not
    awaited: its compiler is spawned and [runElmApp] is called at once;
    what [compileElm] does when its compiler closes happens while the
    renderer runs and is not part of this list. *)
Definition run (env : RunEnv) : list RunEvent :=
  [Call (HTryMkdir "dist"); Generate] ++
  if negb (codegenResolves env) then unhandledRejection
  else
    let compile :=
      spawnElmMake path_join "../../src/Main.elm" "elm.js"
        (Some "./elm-stuff/elm-pages") (cliRun env) in
    map Proc compile ++
    if negb (succeeded compile) then []
    else
      ReadFile ELM_FILE_PATH ::
      match compiledCli env with
      | None => unhandledRejection
      | Some elmFileContent =>
          WriteBack ELM_FILE_PATH (replace_stubs elmFileContent) ::
          if negb (writeBackResolves env) then unhandledRejection
          else
            copyAssets ++
            map Proc (spawnElmMake_start "src/Main.elm" "dist/elm.js" None
                        (staleElmJs env)) ++
            [StartElmApp]
      end.

End Pipeline.

(** *** [compileElm] once its compiler has closed (lines 158-164), with
    [runTerser] and [shellCommand] (lines 196-203 and 229-243) *)

(** How [exec] ends: it rejects when the command fails; otherwise it
    resolves with what the command wrote to its two streams. *)
Record ExecResult : Type := mkExecResult {
  execRejects : bool;
  execStdout : string;
  execStderr : string
}.

Inductive ShellEvent : Type :=
| Exec (command : string)
| ShellLog (text : string)
| ShellError
| ShellExit (code : Z).

(** A string is truthy when it is not empty. *)
Definition truthy (text : string) : bool := negb (String.eqb text "").

(** [shellCommand]: the callback given to [then] logs the standard output
    and throws the standard error when there is any; nobody handles the
    promise [then] returns, so that throw, like a rejection of [exec],
    reaches the listener of [unhandledRejection]. *)
Definition shellCommand (command : string) (result : ExecResult) : list ShellEvent :=
  Exec command ::
  if execRejects result then [ShellError; ShellExit 1]
  else
    (if truthy (execStdout result) then [ShellLog (execStdout result)] else [])
    ++ (if truthy (execStderr result) then [ShellError; ShellExit 1] else []).

Definition terserCommand (filePath : string) : string :=
  "npx terser " +:+ filePath +:+
  " --module --compress 'pure_funcs=" +:+ q +:+
  "F2,F3,F4,F5,F6,F7,F8,F9,A2,A3,A4,A5,A6,A7,A8,A9" +:+ q +:+
  ",pure_getters,keep_fargs=false,unsafe_comps,unsafe' | npx terser --module --mangle --output="
  +:+ filePath.

Definition runTerser (filePath : string) (result : ExecResult) : list ShellEvent :=
  shellCommand (terserCommand filePath) result.

(** What [compileElm] does when the compiler of the site has closed with
    success: the artifact at [elmPath], the output path joined to the
    working directory, is made a module and the minifier is run on
    [dist/elm.js]. *)
Definition compileElm_then (elmPath : string) (files : gmap string string)
    (terser : ExecResult) : option (gmap string string) * list ShellEvent :=
  match elmToEsm elmPath files with
  | None => (None, [ShellError; ShellExit 1])
  | Some files' => (Some files', runTerser "dist/elm.js" terser)
  end.

(** * Facts *)

(** ** Strings *)

Local Arguments String.append !_ _ / : simpl nomatch.

Lemma str_app_nil_r (s : string) : s +:+ "" = s.
Proof. induction s as [|a s IH]; [reflexivity|]. cbn. by rewrite IH. Qed.

Lemma str_app_assoc (s t u : string) : (s +:+ t) +:+ u = s +:+ t +:+ u.
Proof. induction s as [|a s IH]; [reflexivity|]. cbn. by rewrite IH. Qed.

Lemma str_length_app (s t : string) :
  String.length (s +:+ t) = String.length s + String.length t.
Proof. induction s as [|a s IH]; [reflexivity|]. cbn. by rewrite IH. Qed.

Lemma str_app_eq_nil (s t : string) : s +:+ t = "" -> s = "" /\ t = "".
Proof. destruct s; cbn; [tauto | discriminate]. Qed.

Lemma strip_prefix_Some (p s t : string) :
  strip_prefix p s = Some t <-> s = p +:+ t.
Proof.
  revert s. induction p as [|a p IH]; intros s; cbn.
  - split; congruence.
  - destruct s as [|b s]; [split; discriminate|].
    destruct (Ascii.eqb_spec a b) as [->|Hne].
    + rewrite IH. split; congruence.
    + split; [discriminate | congruence].
Qed.

Lemma strip_prefix_None (p s : string) :
  strip_prefix p s = None <-> forall t, s <> p +:+ t.
Proof.
  split.
  - intros Hnone t Heq. apply strip_prefix_Some in Heq. congruence.
  - intros Hno. destruct (strip_prefix p s) as [t|] eqn:E; [|done].
    apply strip_prefix_Some in E. by destruct (Hno t).
Qed.

Lemma strip_suffix_Some (suf s t : string) :
  strip_suffix suf s = Some t <-> s = t +:+ suf.
Proof.
  revert t. induction s as [|c s IH]; intros t.
  - destruct suf as [|a suf]; cbn.
    + split; [intros [= <-]; reflexivity|].
      intros H. symmetry in H. apply str_app_eq_nil in H as [-> _]. done.
    + split; [discriminate|].
      intros H. symmetry in H. by apply str_app_eq_nil in H as [_ ?].
  - change (strip_suffix suf (String c s)) with
      (if String.eqb (String c s) suf then Some ""
       else String c <$> strip_suffix suf s).
    destruct (String.eqb_spec (String c s) suf) as [<-|Hne].
    + split; [intros [= <-]; reflexivity|].
      intros H. apply (f_equal String.length) in H.
      rewrite str_length_app in H.
      destruct t; [done | cbn in H; lia].
    + destruct (strip_suffix suf s) as [t'|]; cbn.
      * split.
        -- intros [= <-]. cbn. f_equal. by apply IH.
        -- destruct t as [|c' t]; cbn; [congruence|].
           intros [= <- H]. apply IH in H. congruence.
      * split; [discriminate|].
        destruct t as [|c' t]; cbn; [congruence|].
        intros [= <- H]. apply IH in H. congruence.
Qed.

Lemma replace_at_end_app (pat rep t : string) :
  replace_at_end pat rep (t +:+ pat) = t +:+ rep.
Proof.
  unfold replace_at_end.
  by rewrite (proj2 (strip_suffix_Some pat (t +:+ pat) t) eq_refl).
Qed.

Lemma replace_at_end_no_match (pat rep s : string) :
  ends_with pat s = false -> replace_at_end pat rep s = s.
Proof.
  unfold ends_with, replace_at_end.
  by destruct (strip_suffix pat s).
Qed.

Lemma ends_with_true (suf s : string) :
  ends_with suf s = true <-> exists t, s = t +:+ suf.
Proof.
  unfold ends_with. split.
  - destruct (strip_suffix suf s) as [t|] eqn:E; [|discriminate].
    intros _. exists t. by apply strip_suffix_Some.
  - intros [t ->].
    by rewrite (proj2 (strip_suffix_Some suf (t +:+ suf) t) eq_refl).
Qed.

Lemma repeat_string_comm (s : string) (n : nat) :
  repeat_string s n +:+ s = s +:+ repeat_string s n.
Proof.
  induction n as [|n IH]; cbn [repeat_string].
  - by rewrite str_app_nil_r.
  - by rewrite str_app_assoc, IH.
Qed.

Lemma split_not_nil (sep : ascii) (s : string) : split sep s <> [].
Proof.
  induction s as [|c s IH]; cbn; [done|].
  destruct (Ascii.eqb c sep); [done|]. by destruct (split sep s).
Qed.

Lemma split_app_sep (sep : ascii) (a b : string) :
  split sep (a +:+ String sep b) = split sep a ++ split sep b.
Proof.
  induction a as [|c a IH]; cbn [String.append split].
  - by rewrite Ascii.eqb_refl.
  - destruct (Ascii.eqb c sep); [by rewrite IH|].
    rewrite IH. pose proof (split_not_nil sep a) as Hne.
    by destruct (split sep a).
Qed.

Lemma join_dotdot (n : nat) :
  join "/" (replicate (S n) "..") = repeat_string "../" n +:+ "..".
Proof.
  induction n as [|n IH]; [reflexivity|].
  change (join "/" (replicate (S (S n)) ".."))
    with (".." +:+ "/" +:+ join "/" (replicate (S n) "..")).
  rewrite IH. reflexivity.
Qed.

Lemma map_const_replicate {A B} (b : B) (l : list A) :
  map (fun _ => b) l = replicate (length l) b.
Proof. induction l as [|a l IH]; cbn; [done | by rewrite IH]. Qed.

(** ** Routes *)

Lemma pathToRoot_segments (route : string) :
  route <> "" ->
  pathToRoot route = repeat_string "../" (length (split "/" route)).
Proof.
  intros Hne. unfold pathToRoot.
  destruct (String.eqb_spec route "") as [|_]; [done|].
  rewrite map_const_replicate.
  destruct (length (split "/" route)) as [|n] eqn:Hlen.
  { apply length_zero_iff_nil in Hlen. by apply split_not_nil in Hlen. }
  rewrite join_dotdot.
  change ".." with ("." +:+ ".").
  rewrite <- str_app_assoc, replace_at_end_app, str_app_assoc.
  change ("." +:+ "./") with "../".
  by rewrite repeat_string_comm.
Qed.

Lemma cleanRoute_empty (route : string) :
  cleanRoute route = "" <-> route = "" \/ route = "/".
Proof.
  split; [|by intros [->| ->]].
  unfold cleanRoute, replace_at_end.
  destruct (strip_prefix "/" route) as [rest|] eqn:Hp.
  - apply strip_prefix_Some in Hp. intros ->. by right.
  - destruct (strip_suffix "/" route) as [t|] eqn:Hs.
    + apply strip_suffix_Some in Hs. rewrite str_app_nil_r. intros ->. by right.
    + by left.
Qed.

Lemma baseRoute_segments (route : string) :
  baseRoute route =
    if String.eqb route "" || String.eqb route "/" then "./"
    else repeat_string "../" (length (split "/" route)).
Proof.
  unfold baseRoute.
  destruct (String.eqb_spec route "") as [->|Hne]; [reflexivity|].
  destruct (String.eqb_spec route "/") as [->|Hne']; [reflexivity|].
  destruct (String.eqb_spec (cleanRoute route) "") as [Hc|_].
  - apply cleanRoute_empty in Hc. tauto.
  - by apply pathToRoot_segments.
Qed.

Lemma baseRoute_of_uncleaned_route (route : string) :
  cleanRoute route <> "" ->
  cleanRoute route <> route ->
  baseRoute route = "../" +:+ pathToRoot (cleanRoute route).
Proof.
  intros Hne Hch. rewrite baseRoute_segments.
  destruct (String.eqb_spec route "") as [->|_]; [done|].
  destruct (String.eqb_spec route "/") as [->|_]; [done|].
  cbn [orb]. rewrite (pathToRoot_segments _ Hne).
  change ("../" +:+ repeat_string "../" (length (split "/" (cleanRoute route))))
    with (repeat_string "../" (S (length (split "/" (cleanRoute route))))).
  f_equal. revert Hne Hch. unfold cleanRoute, replace_at_end.
  destruct (strip_prefix "/" route) as [rest|] eqn:Hp.
  - apply strip_prefix_Some in Hp as ->. intros _ _. cbn. reflexivity.
  - destruct (strip_suffix "/" route) as [t|] eqn:Hs; [|done].
    apply strip_suffix_Some in Hs as ->. rewrite str_app_nil_r. intros _ _.
    change "/" with (String "/" ""). rewrite split_app_sep, length_app.
    cbn. lia.
Qed.

Lemma concat_lookup (sep : string) (l : list string) (i : nat) (y : string) :
  l !! i = Some y ->
  exists pre post, String.concat sep l = pre +:+ y +:+ post.
Proof.
  intros Hi. rewrite <- (take_drop_middle l i y Hi).
  generalize (take i l) as xs. generalize (drop (S i) l) as zs. clear.
  intros zs xs. induction xs as [|x xs (pre & post & IH)].
  - exists "". destruct zs as [|z zs].
    + exists "". cbn. by rewrite str_app_nil_r.
    + by exists (sep +:+ String.concat sep (z :: zs)).
  - exists (x +:+ sep +:+ pre), post.
    change ((x :: xs) ++ y :: zs) with (x :: (xs ++ y :: zs)).
    destruct (xs ++ y :: zs) as [|x' l'] eqn:E; [by destruct xs|].
    change (String.concat sep (x :: x' :: l'))
      with (x +:+ sep +:+ String.concat sep (x' :: l')).
    by rewrite IH, !str_app_assoc.
Qed.

(** C3, as the spec states it, fails: normalizing ["indexindex"] gives
    ["index"], which normalizes further to [""], and the slashes of
    ["/blog/"] are kept. *)
Lemma normalizedRoute_not_idempotent :
  normalizedRoute "indexindex" = "index" /\
  normalizedRoute (normalizedRoute "indexindex") = "" /\
  normalizedRoute "/blog/" = "/blog/".
Proof. repeat split. Qed.

(** C3, amended: the normalization removes the letters [index] once from
    the end of a route that ends with them and changes nothing else (no
    slash is removed); normalizing again changes nothing exactly when the
    normalized route does not itself end with [index]. *)
Theorem normalizedRoute_strips_one_index (route : string) :
  route = normalizedRoute route +:+ (if ends_with "index" route then "index" else "") /\
  (normalizedRoute (normalizedRoute route) = normalizedRoute route <->
   ends_with "index" (normalizedRoute route) = false).
Proof.
  split.
  - unfold normalizedRoute, replace_at_end, ends_with.
    destruct (strip_suffix "index" route) as [t|] eqn:E.
    + apply strip_suffix_Some in E. by rewrite str_app_nil_r.
    + by rewrite str_app_nil_r.
  - split.
    + intros Hidem.
      destruct (ends_with "index" (normalizedRoute route)) eqn:E; [|done].
      apply ends_with_true in E as [t Ht].
      rewrite Ht in Hidem. unfold normalizedRoute at 1 in Hidem.
      rewrite replace_at_end_app, str_app_nil_r in Hidem.
      apply (f_equal String.length) in Hidem.
      rewrite str_length_app in Hidem. cbn in Hidem. lia.
    + intros E. by apply replace_at_end_no_match.
Qed.

(** ** The module transform *)

Lemma replace_first_spec (pat rep s : string) :
  (exists pre post, s = pre +:+ pat +:+ post) ->
  exists pre post,
    s = pre +:+ pat +:+ post /\
    (forall pre' post', s = pre' +:+ pat +:+ post' ->
                        String.length pre <= String.length pre') /\
    replace_first pat rep s = pre +:+ rep +:+ post.
Proof.
  induction s as [|c s IH]; intros (pre0 & post0 & H0).
  - symmetry in H0. apply str_app_eq_nil in H0 as [-> H0].
    apply str_app_eq_nil in H0 as [-> ->].
    exists "", "". repeat split. intros pre' post' _. cbn. lia.
  - cbn [replace_first].
    destruct (strip_prefix pat (String c s)) as [rest|] eqn:Hp.
    + apply strip_prefix_Some in Hp.
      exists "", rest. repeat split; [done|]. intros pre' post' _. cbn. lia.
    + pose proof (proj1 (strip_prefix_None _ _) Hp) as Hno.
      destruct pre0 as [|c0 pre0]; [by destruct (Hno post0)|].
      cbn in H0. injection H0 as <- H0.
      destruct IH as (pre & post & Hs & Hfirst & Hrep); [by eauto|].
      exists (String c pre), post. repeat split.
      * cbn. by f_equal.
      * intros [|c' pre'] post' H'; [by destruct (Hno post')|].
        cbn in H'. injection H' as <- H'. cbn.
        specialize (Hfirst _ _ H'). lia.
      * cbn. by f_equal.
Qed.

(** C6, as the spec states it, fails: the output is not the input with the
    marker substituted and an export statement appended; for the artifact
    that is the marker alone the output begins with a blank line and the
    declaration of [scope], so it does not begin with the substituted
    marker, and it ends with one more blank line. *)
Lemma elmToEsm_prepends_scope_declaration :
  elmToEsm_text "}(this));" =
    nl +:+ "const scope = {};" +:+ nl +:+
    "}(scope));" +:+ "export const { Elm } = scope;" +:+ nl +:+ nl /\
  strip_prefix "}(scope));" (elmToEsm_text "}(this));") = None.
Proof. split; reflexivity. Qed.

(** C6, amended: for an artifact that contains the marker, the file is
    written back at the same path as: a blank line and the line
    [const scope = {};], then the artifact with the first occurrence of
    the marker replaced by the invocation on [scope] and every other byte
    kept, then the export statement and a blank line. *)
Theorem elmToEsm_keeps_all_but_first_marker
    (elmPath : string) (files : gmap string string) (elmEs3 : string) :
  files !! elmPath = Some elmEs3 ->
  (exists pre post, elmEs3 = pre +:+ marker +:+ post) ->
  exists pre post,
    elmEs3 = pre +:+ marker +:+ post /\
    (forall pre' post', elmEs3 = pre' +:+ marker +:+ post' ->
                        String.length pre <= String.length pre') /\
    elmToEsm elmPath files =
      Some (<[elmPath :=
               (nl +:+ "const scope = {};" +:+ nl) +:+
               (pre +:+ "}(scope));" +:+ post) +:+
               ("export const { Elm } = scope;" +:+ nl +:+ nl)]> files).
Proof.
  intros Hfile Hmarker.
  destruct (replace_first_spec marker "}(scope));" elmEs3 Hmarker)
    as (pre & post & Hs & Hfirst & Hrep).
  exists pre, post. repeat split; [done..|].
  unfold elmToEsm. rewrite Hfile. unfold elmToEsm_text. by rewrite Hrep.
Qed.

Lemma elmToEsm_keeps_all_but_first_marker_witness :
  exists pre post,
    "(function(scope){}(this));" = pre +:+ marker +:+ post /\
    (forall pre' post', "(function(scope){}(this));" = pre' +:+ marker +:+ post' ->
                        String.length pre <= String.length pre') /\
    elmToEsm "dist/elm.js" {[ "dist/elm.js" := "(function(scope){}(this));" ]} =
      Some (<["dist/elm.js" :=
               (nl +:+ "const scope = {};" +:+ nl) +:+
               (pre +:+ "}(scope));" +:+ post) +:+
               ("export const { Elm } = scope;" +:+ nl +:+ nl)]>
              {[ "dist/elm.js" := "(function(scope){}(this));" ]}).
Proof.
  apply (elmToEsm_keeps_all_but_first_marker "dist/elm.js"
           {[ "dist/elm.js" := "(function(scope){}(this));" ]}
           "(function(scope){}(this));").
  - reflexivity.
  - exists "(function(scope){", "". reflexivity.
Defined.

(** ** The dispatcher *)

Section CliFacts.

Variable cliVersion : string.
Variable seo_toString : list SeoTag -> string.
Variable generateManifest : json -> json.
Variable path_dirname : string -> string.

Local Abbreviation wrapHtml' := (wrapHtml cliVersion seo_toString).
Local Abbreviation outputString_task' := (outputString_task cliVersion seo_toString).
Local Abbreviation outputString' := (outputString cliVersion seo_toString).
Local Abbreviation generateFiles' := (generateFiles path_dirname).
Local Abbreviation handler :=
  (toJsPort_handler cliVersion seo_toString generateManifest path_dirname).
Local Abbreviation dispatch' :=
  (dispatch cliVersion seo_toString generateManifest path_dirname).
Local Abbreviation runElmApp' :=
  (runElmApp cliVersion seo_toString generateManifest path_dirname).

Lemma generateFiles_foundErrors (files : list GenFile.t) (w : World) :
  foundErrors (generateFiles' files w) = foundErrors w.
Proof.
  unfold generateFiles.
  revert w. induction files as [|f files IH]; intros w; [done|].
  cbn [foldl]. by rewrite IH.
Qed.

Lemma handler_foundErrors (w : World) (fromElm : FromElm) :
  foundErrors (handler w fromElm).1 = foundErrors w || is_Errors fromElm.
Proof.
  unfold toJsPort_handler, is_Errors.
  destruct (is_string "log" (command fromElm)); cbn.
  { by rewrite orb_false_r. }
  destruct (is_string "InitialData" (tag fromElm)) eqn:Hi.
  { assert (is_string "Errors" (tag fromElm) = false) as ->.
    { destruct (tag fromElm) as [t|]; [|done]. cbn in *.
      apply String.eqb_eq in Hi as ->. done. }
    rewrite orb_false_r.
    destruct (args fromElm) as [|[] ?]; cbn; try done.
    by rewrite generateFiles_foundErrors. }
  destruct (is_string "PageProgress" (tag fromElm)) eqn:Hp.
  { assert (is_string "Errors" (tag fromElm) = false) as ->.
    { destruct (tag fromElm) as [t|]; [|done]. cbn in *.
      apply String.eqb_eq in Hp as ->. done. }
    rewrite orb_false_r.
    by destruct (args fromElm) as [|[] ?]. }
  destruct (is_string "Errors" (tag fromElm)); cbn.
  - by rewrite orb_true_r.
  - by rewrite orb_false_r.
Qed.

Lemma dispatch_foundErrors_mono (w : World) (messages : list FromElm) :
  foundErrors w = true -> foundErrors (dispatch' w messages).1 = true.
Proof.
  revert w. induction messages as [|m rest IH]; intros w Hw; [done|].
  cbn [dispatch].
  pose proof (handler_foundErrors w m) as Hstep.
  destruct (handler w m) as [w' [|e]]; cbn in Hstep.
  - apply IH. by rewrite Hstep, Hw.
  - cbn. by rewrite Hstep, Hw.
Qed.

Lemma dispatch_foundErrors_origin (w : World) (messages : list FromElm) :
  foundErrors (dispatch' w messages).1 = true ->
  foundErrors w = true \/ exists m, m ∈ messages /\ is_Errors m = true.
Proof.
  revert w. induction messages as [|m rest IH]; intros w; [by left|].
  cbn [dispatch].
  pose proof (handler_foundErrors w m) as Hstep.
  destruct (handler w m) as [w' c]; cbn in Hstep.
  assert (foundErrors w' = true ->
          foundErrors w = true \/ exists m0, m0 ∈ m :: rest /\ is_Errors m0 = true)
    as Hw'.
  { rewrite Hstep. intros [?|?]%orb_true_iff; [by left|].
    right. exists m. split; [left | done]. }
  destruct c as [|e]; [|done].
  intros [Hfound | (m0 & Hin & Hm0)]%IH; [by apply Hw'|].
  right. exists m0. split; [by right | done].
Qed.

Lemma dispatch_pages (w : World) (pages : list Arg.t) :
  dispatch' w (map pageProgress pages) =
    ({| foundErrors := foundErrors w;
        stdout := stdout w ++
                  map (fun page => CText ("Pre-rendered /" +:+ Arg.route page)) pages;
        stderr := stderr w;
        tasks := tasks w ++ map outputString_task' pages |},
     Normal).
Proof.
  revert w. induction pages as [|page pages IH]; intros w.
  - cbn. rewrite !app_nil_r. by destruct w.
  - cbn [map dispatch]. unfold toJsPort_handler at 1. cbn.
    rewrite IH. cbn. by rewrite <- !app_assoc.
Qed.

Lemma written_of_task (w : World) (t : list FsRequest) (file data : string) :
  t ∈ tasks w -> WriteFile file data ∈ t -> (file, data) ∈ written w.
Proof.
  intros Ht Hreq. unfold written.
  apply list_elem_of_In, in_concat. exists (writes_of t). split.
  - apply in_map, list_elem_of_In, Ht.
  - apply list_elem_of_In. unfold writes_of.
    apply list_elem_of_omap. by exists (WriteFile file data).
Qed.

(** C1: an [Errors] message sets the flag, prints its details on the
    error stream, starts no file-system task and completes normally; the
    [PageProgress] messages that follow are all handled, each starting
    the task that writes its [index.html] and [content.json], and at
    [beforeExit] the exit code is 1. *)
Theorem errors_message_does_not_halt
    (w : World) (fromElm : FromElm) (pages : list Arg.t) :
  is_Errors fromElm = true ->
  exists w1 w2,
    handler w fromElm = (w1, Normal) /\
    foundErrors w1 = true /\
    stderr w1 = stderr w ++ [CPayload (hd_error (args fromElm))] /\
    stdout w1 = stdout w /\
    tasks w1 = tasks w /\
    dispatch' w (fromElm :: map pageProgress pages) = (w2, Normal) /\
    tasks w2 = tasks w ++ map outputString_task' pages /\
    (forall page, page ∈ pages ->
       (indexHtmlPath page, wrapHtml' page) ∈ written w2 /\
       (contentJsonPath page, stringify (contentJsonObject page)) ∈ written w2) /\
    foundErrors w2 = true /\
    beforeExit w2 = 1%Z.
Proof.
  intros Herr. unfold is_Errors in Herr.
  apply andb_true_iff in Herr as [Hlog Htag].
  apply negb_true_iff in Hlog.
  assert (handler w fromElm =
          (set_foundErrors true
             (console_error (CPayload (hd_error (args fromElm))) w), Normal))
    as Hstep.
  { unfold toJsPort_handler. rewrite Hlog, Htag.
    destruct (tag fromElm) as [t|]; [|done]. cbn in Htag.
    apply String.eqb_eq in Htag as ->. reflexivity. }
  exists (set_foundErrors true
            (console_error (CPayload (hd_error (args fromElm))) w)).
  exists {| foundErrors := true;
            stdout := stdout w ++
                      map (fun page => CText ("Pre-rendered /" +:+ Arg.route page)) pages;
            stderr := stderr w ++ [CPayload (hd_error (args fromElm))];
            tasks := tasks w ++ map outputString_task' pages |}.
  split; [exact Hstep|].
  split_and!; try reflexivity.
  - cbn [dispatch]. rewrite Hstep, dispatch_pages. reflexivity.
  - intros page Hpage.
    assert (outputString_task' page ∈
            tasks w ++ map outputString_task' pages) as Htask.
    { apply elem_of_app. right. by apply (list_elem_of_fmap_2 outputString_task'). }
    split; (eapply written_of_task; [exact Htask|]);
      apply list_elem_of_In; cbn; tauto.
Qed.

(** C4: [baseRoute] cleans the route only to test for the root route and
    then hands the route as it received it to [pathToRoot], whose
    parameter is the cleaned route.  A leading or a trailing slash is
    therefore counted as a segment of its own: the routes ["/a"] and
    ["a/"] have the one segment [a] and their page is written one
    directory below [dist], yet their base href is ["../../"], where
    [pathToRoot] of the cleaned route is ["../"].  Whenever cleaning
    changes a route that is not the root route, the base href is one
    ["../"] longer than [pathToRoot] of the cleaned route.  On the routes
    cleaning leaves as they are, [""] and ["a/b"] among them, the base
    href is ["./"] for the root route and otherwise ["../"] once per
    segment.  The document carries the value in its [base] tag. *)
Theorem baseRoute_counts_slashes_of_the_uncleaned_route :
  baseRoute "/a" = "../../" /\
  baseRoute "a/" = "../../" /\
  cleanRoute "/a" = "a" /\
  cleanRoute "a/" = "a" /\
  pathToRoot "a" = "../" /\
  baseRoute "a" = "../" /\
  pageDirectory "/a" = ["dist"; "a"] /\
  pageDirectory "a/" = ["dist"; "a"] /\
  (forall route : string,
     cleanRoute route <> "" ->
     cleanRoute route <> route ->
     baseRoute route = "../" +:+ pathToRoot (cleanRoute route)) /\
  (forall route : string,
     cleanRoute route = route ->
     baseRoute route =
       if String.eqb route "" then "./"
       else repeat_string "../" (length (split "/" route))) /\
  baseRoute "" = "./" /\
  baseRoute "a/b" = "../../" /\
  (forall page : Arg.t,
     exists pre post,
       wrapHtml' page =
         pre +:+
         ("<base href=" +:+ q +:+ baseRoute (Arg.route page) +:+ q +:+ ">") +:+
         post).
Proof.
  split_and!; try reflexivity.
  - apply baseRoute_of_uncleaned_route.
  - intros route Hclean. rewrite baseRoute_segments.
    destruct (String.eqb_spec route "") as [->|_]; [reflexivity|].
    destruct (String.eqb_spec route "/") as [->|_]; [discriminate Hclean|].
    reflexivity.
  - intros page. unfold wrapHtml.
    match goal with
    | |- exists pre post, String.concat nl ?l = _ =>
        destruct (concat_lookup nl l 11 _ eq_refl) as (pre & post & ->)
    end.
    exists (pre +:+ "    "), post. by rewrite !str_app_assoc.
Qed.

(** C8: a [log] message has its value handed to [console.log]; the
    handler completes normally, starts no file-system task (so nothing is
    written or created), and leaves the error stream and the flag alone. *)
Theorem log_is_forwarded_without_file_io (w : World) (fromElm : FromElm) :
  command fromElm = Some "log" ->
  exists w',
    handler w fromElm = (w', Normal) /\
    stdout w' = stdout w ++ [CValue (value fromElm)] /\
    stderr w' = stderr w /\
    tasks w' = tasks w /\
    written w' = written w /\
    foundErrors w' = foundErrors w.
Proof.
  intros Hcmd. exists (console_log (CValue (value fromElm)) w).
  split; [|done].
  unfold toJsPort_handler. by rewrite Hcmd.
Qed.

Lemma dispatch_foundErrors_normal (w : World) (messages : list FromElm) :
  (dispatch' w messages).2 = Normal ->
  foundErrors (dispatch' w messages).1 =
    foundErrors w || existsb is_Errors messages.
Proof.
  revert w. induction messages as [|m rest IH]; intros w.
  - cbn. by rewrite orb_false_r.
  - cbn [dispatch existsb].
    pose proof (handler_foundErrors w m) as Hstep.
    destruct (handler w m) as [w' [|e]]; cbn in Hstep; [|done].
    intros Hn. by rewrite (IH _ Hn), Hstep, orb_assoc.
Qed.

(** C10: the flag starts false; a call of the handler leaves it as it was
    unless the message is handled by the [Errors] branch, which sets it;
    [outputString] and [generateFiles] do not touch it; once set it stays
    set whatever messages follow, and it is set at the end only if it was
    set at the start or some message was an [Errors] message: after a run
    in which every message was handled, it is set exactly when it was set
    before or one of the messages was an [Errors] message. *)
Theorem foundErrors_set_only_by_Errors :
  foundErrors initialWorld = false /\
  (forall w fromElm,
     foundErrors (handler w fromElm).1 = foundErrors w || is_Errors fromElm) /\
  (forall page w, foundErrors (outputString' page w) = foundErrors w) /\
  (forall files w, foundErrors (generateFiles' files w) = foundErrors w) /\
  (forall w messages,
     foundErrors w = true -> foundErrors (dispatch' w messages).1 = true) /\
  (forall w messages,
     foundErrors (dispatch' w messages).1 = true ->
     foundErrors w = true \/ exists m, m ∈ messages /\ is_Errors m = true) /\
  (forall w messages,
     (dispatch' w messages).2 = Normal ->
     foundErrors (dispatch' w messages).1 =
       foundErrors w || existsb is_Errors messages).
Proof.
  split_and!.
  - reflexivity.
  - apply handler_foundErrors.
  - reflexivity.
  - apply generateFiles_foundErrors.
  - apply dispatch_foundErrors_mono.
  - apply dispatch_foundErrors_origin.
  - apply dispatch_foundErrors_normal.
Qed.

(** C2, amended: the last request of the task of a page writes
    [dist/<normalizedRoute>/content.json] with the object of exactly the
    two fields [body], holding the [body] field of the page (not its
    [html] field), and [staticData], holding its [contentJson]; for a page
    whose body is [<p>hi</p>] and whose contentJson is [{a:1}] that is the
    text of the spec. *)
Theorem content_json_holds_body_and_staticData (page : Arg.t) :
  (forall w, tasks (handler w (pageProgress page)).1 =
             tasks w ++ [outputString_task' page]) /\
  last (outputString_task' page) =
    Some (WriteFile
            ("dist/" +:+ normalizedRoute (Arg.route page) +:+ "/content.json")
            ("{" +:+ q +:+ "body" +:+ q +:+ ":" +:+
             quote_json_string (Arg.body page) +:+ "," +:+
             q +:+ "staticData" +:+ q +:+ ":" +:+
             stringify (Arg.contentJson page) +:+ "}")) /\
  (forall head errors html route title,
     stringify
       (contentJsonObject
          (Arg.mk "<p>hi</p>" head errors (JObj [("a", JNum 1)]) html route title)) =
     "{" +:+ q +:+ "body" +:+ q +:+ ":" +:+ q +:+ "<p>hi</p>" +:+ q +:+ "," +:+
     q +:+ "staticData" +:+ q +:+ ":{" +:+ q +:+ "a" +:+ q +:+ ":1}}").
Proof.
  split_and!.
  - reflexivity.
  - unfold outputString_task, contentJsonPath, contentJsonObject.
    cbn [last stringify map join].
    change (quote_json_string "body") with (q +:+ "body" +:+ q).
    change (quote_json_string "staticData") with (q +:+ "staticData" +:+ q).
    by rewrite !str_app_assoc.
  - reflexivity.
Qed.

(** C7: for pages with the routes [""], ["blog/post-1"] and
    ["blog/post-1/index"] the three HTML documents are written to
    [dist//index.html], [dist/blog/post-1/index.html] and
    [dist/blog/post-1//index.html], which the file system resolves to
    [dist/index.html], [dist/blog/post-1/index.html] and
    [dist/blog/post-1/index.html]: the third write lands on the file of
    the second. *)
Theorem index_route_collides (p1 p2 p3 : Arg.t) :
  Arg.route p1 = "" ->
  Arg.route p2 = "blog/post-1" ->
  Arg.route p3 = "blog/post-1/index" ->
  exists w,
    dispatch' initialWorld (map pageProgress [p1; p2; p3]) = (w, Normal) /\
    written w =
      [ ("dist//index.html", wrapHtml' p1);
        ("dist//content.json", stringify (contentJsonObject p1));
        ("dist/blog/post-1/index.html", wrapHtml' p2);
        ("dist/blog/post-1/content.json", stringify (contentJsonObject p2));
        ("dist/blog/post-1//index.html", wrapHtml' p3);
        ("dist/blog/post-1//content.json", stringify (contentJsonObject p3)) ] /\
    map resolve
      ["dist//index.html"; "dist/blog/post-1/index.html";
       "dist/blog/post-1//index.html"] =
      [ resolve "dist/index.html"; resolve "dist/blog/post-1/index.html";
        resolve "dist/blog/post-1/index.html" ] /\
    resolve "dist/index.html" = ["dist"; "index.html"] /\
    resolve "dist/blog/post-1/index.html" = ["dist"; "blog"; "post-1"; "index.html"].
Proof.
  intros H1 H2 H3. eexists. split; [apply dispatch_pages|].
  split_and!; [|reflexivity..].
  unfold written. cbn. unfold indexHtmlPath, contentJsonPath.
  by rewrite H1, H2, H3.
Qed.

End CliFacts.

(** ** The compiler subprocess *)

Section SpawnFacts.

Variable path_join : string -> string -> string.

Local Abbreviation spawnElmMake' := (spawnElmMake path_join).

Lemma last_snoc2 {A} (l : list A) (a b : A) : last (l ++ [a; b]) = Some b.
Proof.
  change [a; b] with ([a] ++ [b]). by rewrite app_assoc, last_snoc.
Qed.

(** C5: an invocation succeeds exactly when the subprocess closed with
    code zero and the output file exists afterwards; in every other case
    the promise is rejected and the very next thing is [process.exit(1)];
    the compiler is spawned once in either case. *)
Theorem spawnElmMake_succeeds_iff
    (elmEntrypointPath outputPath : string) (cwd : option string)
    (env : ElmMakeRun) :
  let events := spawnElmMake' elmEntrypointPath outputPath cwd env in
  (succeeded events = true <->
   closeCode env = Some 0%Z /\ existsAfter env = true) /\
  (succeeded events = false <->
   exists before, events = before ++ [EvReject; EvProcessExit 1]) /\
  length (filter (fun e => is_spawn e = true) events) = 1.
Proof.
  cbn zeta. unfold spawnElmMake, on_close, succeeded.
  assert (code_is_zero (closeCode env) = true <-> closeCode env = Some 0%Z)
    as Hzero.
  { unfold code_is_zero. destruct (closeCode env) as [c|]; [|done].
    rewrite Z.eqb_eq. split; congruence. }
  rewrite !app_assoc.
  set (prelude := (if existsBefore env then _ else _) ++ [_]).
  assert (length (filter (fun e => is_spawn e = true) prelude) = 1) as Hone.
  { subst prelude. by destruct (existsBefore env). }
  assert (forall tail,
            filter (fun e => is_spawn e = true) tail = [] ->
            length (filter (fun e => is_spawn e = true) (prelude ++ tail)) = 1)
    as Hcount.
  { intros tail Ht. by rewrite filter_app, length_app, Hone, Ht. }
  destruct (code_is_zero (closeCode env)) eqn:Hc;
    [destruct (existsAfter env) eqn:Ha|]; cbn [andb].
  - rewrite last_snoc. split_and!.
    + split; [intros _; split; [by apply Hzero | done] | done].
    + split; [done|]. intros [before Hb].
      apply (f_equal last) in Hb. by rewrite last_snoc, last_snoc2 in Hb.
    + by apply Hcount.
  - rewrite last_snoc2. split_and!.
    + split; [done | intros [_ ?]; done].
    + split; [|done]. intros _. by exists prelude.
    + by apply Hcount.
  - rewrite last_snoc2. split_and!.
    + split; [done|]. intros [Hz _]. apply Hzero in Hz. done.
    + split; [|done]. intros _. by exists prelude.
    + by apply Hcount.
Qed.

End SpawnFacts.

(** ** The directory copier *)

Import CopyDir.

Lemma child_name_Some (dir p : list string) (c : string) :
  child_name dir p = Some c <-> p = dir ++ [c].
Proof.
  revert p. induction dir as [|a dir IH]; intros p.
  - destruct p as [|b [|b' p]]; cbn; split; congruence.
  - destruct p as [|b p]; cbn.
    + split; [discriminate|]. by destruct dir.
    + case_decide as Hab.
      * subst b. rewrite IH. split; congruence.
      * split; [discriminate | congruence].
Qed.

Lemma elem_of_readdir (fs : fsys) (p : list string) (items : list string) :
  readdir fs p = inr items ->
  forall c, c ∈ items <-> is_Some (fs !! (p ++ [c])).
Proof.
  unfold readdir. destruct (fs !! p) as [[]|]; [done| |done].
  intros [= <-] c. rewrite list_elem_of_omap. split.
  - intros ([k v] & Hin & Hc). cbn in Hc.
    apply child_name_Some in Hc as ->.
    apply elem_of_map_to_list in Hin. eauto.
  - intros [v Hv]. exists (p ++ [c], v). split.
    + by apply elem_of_map_to_list.
    + by apply child_name_Some.
Qed.

Lemma NoDup_readdir (fs : fsys) (p : list string) (items : list string) :
  readdir fs p = inr items -> NoDup items.
Proof.
  unfold readdir. destruct (fs !! p) as [[]|]; [done| |done].
  intros [= <-].
  pose proof (NoDup_fst_map_to_list fs) as Hnd.
  induction (map_to_list fs) as [|[k v] l IH]; cbn in *; [constructor|].
  apply NoDup_cons in Hnd as [Hk Hnd].
  destruct (child_name p k) as [c|] eqn:Hc; [|by apply IH].
  apply NoDup_cons. split; [|by apply IH].
  intros ([k' v'] & Hin & Hc')%list_elem_of_omap. cbn in Hc'.
  apply child_name_Some in Hc, Hc'. subst k k'.
  apply Hk. apply list_elem_of_fmap. by exists (p ++ [c], v').
Qed.

Lemma wf_check_sound (fs : fsys) : wf_check fs = true -> wf fs.
Proof.
  unfold wf_check, wf, isDirectory.
  intros [Hroot Hall]%andb_true_iff. split.
  - by destruct (fs !! []) as [[]|].
  - intros p c [v Hv].
    rewrite forallb_forall in Hall.
    assert (In (p ++ [c], v) (map_to_list fs)) as Hin.
    { by apply list_elem_of_In, elem_of_map_to_list. }
    specialize (Hall (p ++ [c], v) Hin). cbn in Hall.
    unfold parent in Hall. rewrite removelast_last in Hall.
    destruct (p ++ [c]) eqn:E; [by destruct p|].
    by destruct (fs !! p) as [[]|].
Qed.

Lemma wf_absent_below (fs : fsys) (p rel : list string) :
  wf fs -> fs !! p = None -> fs !! (p ++ rel) = None.
Proof.
  intros [_ Hwf] Hp. induction rel as [|c rel IH] using rev_ind.
  - by rewrite app_nil_r.
  - destruct (fs !! (p ++ rel ++ [c])) as [v|] eqn:E; [|done].
    rewrite app_assoc in E.
    rewrite (Hwf (p ++ rel) c) in IH; [done | eauto].
Qed.

Lemma wf_below_file (fs : fsys) (p rel : list string) (data : string) :
  wf fs -> fs !! p = Some (File data) -> rel <> [] -> fs !! (p ++ rel) = None.
Proof.
  intros [Hroot Hwf] Hp. induction rel as [|c rel IH] using rev_ind; [done|].
  intros _. destruct (fs !! (p ++ rel ++ [c])) as [v|] eqn:E; [|done].
  rewrite app_assoc in E.
  assert (fs !! (p ++ rel) = Some Dir) as Hdir by (apply (Hwf _ c); eauto).
  destruct rel as [|c' rel] using rev_ind.
  - rewrite app_nil_r in Hdir. congruence.
  - rewrite IH in Hdir; [done|]. by destruct rel.
Qed.

Lemma wf_insert (fs : fsys) (dir : list string) (name : string) (v : node) :
  wf fs ->
  fs !! dir = Some Dir ->
  fs !! (dir ++ [name]) = None ->
  wf (<[dir ++ [name] := v]> fs).
Proof.
  intros Hwf Hdir Hnew. pose proof Hwf as [Hroot Hup]. split.
  - rewrite lookup_insert_ne; [done|]. by destruct dir.
  - intros p c Hpc.
    destruct (decide (dir ++ [name] = p ++ [c])) as [Heq|Hne].
    + apply app_inj_tail in Heq as [<- <-].
      rewrite lookup_insert_ne; [done|].
      intros E. apply (f_equal length) in E. rewrite length_app in E.
      cbn in E. lia.
    + rewrite lookup_insert_ne in Hpc by done.
      destruct (decide (dir ++ [name] = p)) as [<-|Hne'].
      * rewrite (wf_absent_below fs _ _ Hwf Hnew) in Hpc.
        by destruct Hpc.
      * rewrite lookup_insert_ne by done. by apply (Hup p c).
Qed.

Lemma apart_no_common (src dest q r : list string) :
  apart src dest -> src ++ q <> dest ++ r.
Proof.
  intros [Hsd Hds] Heq.
  destruct (prefix_weak_total src dest (src ++ q)) as [?|?]; try done.
  - by exists q.
  - rewrite Heq. by exists r.
Qed.

Lemma apart_children (src dest : list string) (c : string) :
  apart src dest -> apart (src ++ [c]) (dest ++ [c]).
Proof.
  intros Hap. split; intros [k Hk].
  - rewrite <- app_assoc in Hk. symmetry in Hk.
    by apply apart_no_common in Hk.
  - rewrite <- app_assoc in Hk. by apply apart_no_common in Hk.
Qed.

Lemma height_bound (fs : fsys) (p : list string) :
  is_Some (fs !! p) -> length p <= height fs.
Proof.
  intros [v Hv]. unfold height.
  apply max_list_elem_of_le.
  apply list_elem_of_In, in_map_iff. exists (p, v). split; [done|].
  by apply list_elem_of_In, elem_of_map_to_list.
Qed.

Lemma child_not_under_sibling (dest rel : list string) (c c' : string) :
  c <> c' -> ~ (dest ++ [c']) `prefix_of` (dest ++ c :: rel).
Proof.
  intros Hne [k Hk]. rewrite <- app_assoc in Hk.
  apply app_inv_head in Hk. cbn in Hk. congruence.
Qed.

Lemma forEach_copies (fuel depth : nat) (src dest : list string)
    (fs0 : fsys) (rejected : list FsError) :
  apart src dest ->
  (forall c rel, is_Some (fs0 !! (src ++ c :: rel)) -> length rel <= depth) ->
  forall (items : list string) (fs : fsys),
    (items <> [] -> copies fuel depth) ->
    NoDup items ->
    wf fs ->
    (forall q, fs !! (src ++ q) = fs0 !! (src ++ q)) ->
    fs !! dest = Some Dir ->
    (forall c, c ∈ items ->
               is_Some (fs0 !! (src ++ [c])) /\ fs !! (dest ++ [c]) = None) ->
    exists fs',
      forEach (fun c => copyDirHelp fuel (src ++ [c]) (dest ++ [c]))
        items (fs, rejected) = Some (fs', rejected) /\
      wf fs' /\
      (forall c rel, c ∈ items ->
                     fs' !! (dest ++ c :: rel) = fs0 !! (src ++ c :: rel)) /\
      (forall p, (forall c, c ∈ items -> ~ (dest ++ [c]) `prefix_of` p) ->
                 fs' !! p = fs !! p).
Proof.
  intros Hap Hdepth.
  induction items as [|c items IH];
    intros fs Hstep Hnd Hwf Hsrc Hdest Hitems.
  - exists fs. split_and!; [done | done | | done].
    intros c rel Hc. by apply elem_of_nil in Hc.
  - apply NoDup_cons in Hnd as [Hc Hnd].
    destruct (Hitems c) as [Hsome Hnone]; [by left|].
    destruct (Hstep ltac:(done) (src ++ [c]) dest c fs rejected)
      as (fs1 & Hrun & Hwf1 & Hmir1 & Hframe1).
    { done. }
    { by apply apart_children. }
    { by rewrite Hsrc. }
    { done. }
    { done. }
    { intros rel Hrel. rewrite <- app_assoc, Hsrc in Hrel.
      by apply (Hdepth c rel). }
    destruct (IH fs1) as (fs' & Hrun' & Hwf' & Hmir' & Hframe').
    { intros _. by apply Hstep. }
    { done. }
    { done. }
    { intros q. rewrite Hframe1; [apply Hsrc|].
      intros [k Hk]. rewrite <- app_assoc in Hk.
      by apply apart_no_common in Hk. }
    { rewrite Hframe1; [done|]. apply prefix_snoc_not. }
    { intros c' Hc'. destruct (Hitems c') as [Hs' Hn']; [by right|].
      split; [done|]. rewrite Hframe1; [done|].
      rewrite <- (app_nil_r [c']).
      apply child_not_under_sibling. intros ->. done. }
    exists fs'. split_and!.
    + cbn [forEach]. by rewrite Hrun.
    + done.
    + intros c' rel [->|Hin]%elem_of_cons.
      * rewrite Hframe'.
        -- change (c :: rel) with ([c] ++ rel).
           by rewrite !app_assoc, Hmir1, <- app_assoc, Hsrc.
        -- intros c'' Hc''. apply child_not_under_sibling. intros ->. done.
      * by apply Hmir'.
    + intros p Hp. rewrite Hframe'.
      * apply Hframe1, Hp. by left.
      * intros c' Hc'. apply Hp. by right.
Qed.

Lemma copyDirHelp_copies (fuel : nat) :
  forall depth, depth < fuel -> copies fuel depth.
Proof.
  induction fuel as [|fuel IH]; intros depth Hlt; [lia|].
  intros src dir name fs rejected Hwf Hap Hsome Hdir Hnew Hdepth.
  cbn [copyDirHelp].
  assert (forall p, ~ (dir ++ [name]) `prefix_of` p -> dir ++ [name] <> p)
    as Hnot_dest.
  { intros p Hp <-. by apply Hp. }
  assert (forall q, dir ++ [name] <> src ++ q) as Hnot_src.
  { intros q E. symmetry in E. rewrite <- (app_nil_r (dir ++ [name])) in E.
    by apply apart_no_common in E. }
  destruct (isDirectory fs src) eqn:Hisdir.
  - assert (fs !! src = Some Dir) as Hsrcdir.
    { unfold isDirectory in Hisdir. by destruct (fs !! src) as [[]|]. }
    unfold mkdir, parent. rewrite Hnew, removelast_last, Hdir.
    set (fs1 := <[dir ++ [name] := Dir]> fs).
    assert (forall q, fs1 !! (src ++ q) = fs !! (src ++ q)) as Hsrc1.
    { intros q. by apply lookup_insert_ne. }
    destruct (readdir fs1 src) as [e|items] eqn:Hrd.
    { unfold readdir in Hrd.
      rewrite <- (app_nil_r src), Hsrc1, app_nil_r, Hsrcdir in Hrd. done. }
    pose proof (elem_of_readdir _ _ _ Hrd) as Hitems.
    destruct (forEach_copies fuel (pred depth) src (dir ++ [name]) fs rejected
                Hap) with (items := items) (fs := fs1)
      as (fs' & Hrun & Hwf' & Hmir & Hframe).
    { intros c rel Hrel. specialize (Hdepth (c :: rel) Hrel). cbn in Hdepth. lia. }
    { intros Hne. apply IH.
      destruct items as [|c items]; [done|].
      assert (is_Some (fs !! (src ++ [c]))) as Hc.
      { rewrite <- Hsrc1. apply Hitems. by left. }
      specialize (Hdepth [c] Hc). cbn in Hdepth. lia. }
    { by apply (NoDup_readdir fs1 src). }
    { by apply wf_insert. }
    { done. }
    { apply lookup_insert_eq. }
    { intros c Hc. split.
      - rewrite <- Hsrc1. by apply Hitems.
      - unfold fs1. rewrite lookup_insert_ne.
        + by apply wf_absent_below.
        + intros E. apply (f_equal length) in E.
          rewrite !length_app in E. cbn in E. lia. }
    exists fs'. split_and!; [done | done | |].
    + intros [|c rel].
      * rewrite !app_nil_r, Hframe.
        -- unfold fs1. by rewrite lookup_insert_eq.
        -- intros c _. apply prefix_snoc_not.
      * destruct (decide (c ∈ items)) as [Hc|Hc]; [by apply Hmir|].
        rewrite Hframe.
        -- unfold fs1. rewrite lookup_insert_ne.
           ++ rewrite (wf_absent_below fs _ _ Hwf Hnew).
              symmetry. change (c :: rel) with ([c] ++ rel).
              rewrite app_assoc. apply wf_absent_below; [done|].
              rewrite <- Hsrc1. apply eq_None_not_Some.
              intros Hs. by apply Hc, Hitems.
           ++ intros E. apply (f_equal length) in E.
              rewrite !length_app in E. cbn in E. lia.
        -- intros c' Hc'. apply child_not_under_sibling. intros ->. done.
    + intros p Hp. rewrite Hframe.
      * apply lookup_insert_ne. by apply Hnot_dest.
      * intros c _ Hpre. by apply Hp, (prefix_app_l _ _ [c]).
  - destruct Hsome as [[data|] Hv];
      [|by unfold isDirectory in Hisdir; rewrite Hv in Hisdir].
    unfold copyFile, parent. rewrite Hv, Hnew, removelast_last, Hdir.
    exists (<[dir ++ [name] := File data]> fs).
    split_and!; [done | by apply wf_insert | |].
    + intros [|c rel].
      * by rewrite !app_nil_r, lookup_insert_eq.
      * rewrite lookup_insert_ne.
        -- rewrite (wf_absent_below fs _ _ Hwf Hnew).
           symmetry. by apply (wf_below_file fs src _ data).
        -- intros E. apply (f_equal length) in E.
           rewrite !length_app in E. cbn in E. lia.
    + intros p Hp. apply lookup_insert_ne. by apply Hnot_dest.
Qed.

Lemma copyDirHelp_absent_parent (fuel : nat) (src dir : list string)
    (name : string) (fs : fsys) (rejected : list FsError) :
  wf fs -> fs !! dir = None ->
  exists e,
    copyDirHelp (S fuel) src (dir ++ [name]) (fs, rejected) =
      Some (fs, rejected ++ [e]).
Proof.
  intros Hwf Hdir.
  pose proof (wf_absent_below fs dir [name] Hwf Hdir) as Hnew.
  cbn [copyDirHelp]. unfold mkdir, copyFile, parent.
  rewrite Hnew, removelast_last, Hdir.
  destruct (isDirectory fs src); [by eauto|].
  destruct (fs !! src) as [[data|]|]; by eauto.
Qed.

Lemma copyDir_absent_destination (fuel : nat) (srcDirectory destDir : list string)
    (fs : fsys) :
  wf fs -> fs !! destDir = None ->
  exists rejected,
    copyDir (S fuel) srcDirectory destDir (fs, []) = Some (fs, rejected).
Proof.
  intros Hwf Hdest. unfold copyDir.
  destruct (readdir fs srcDirectory) as [e|items]; [by eauto|].
  generalize (@nil FsError) as rejected.
  induction items as [|c items IH]; intros rejected; cbn [forEach]; [by eauto|].
  destruct (copyDirHelp_absent_parent fuel (srcDirectory ++ [c]) destDir c
              fs rejected Hwf Hdest) as [e ->].
  apply IH.
Qed.

(** C9, as the spec states it, fails: in a well-formed file system where
    [images] holds one file and [out] does not exist, [copyDir] of
    [images] onto [out] rejects the copy of the file and leaves the file
    system as it was, so nothing of [images] is under [out]; and
    [copyDirHelp] onto [out/images], whose parent [out] does not exist,
    rejects the [mkdir] and copies nothing either. *)
Lemma copyDir_onto_absent_destination_copies_nothing :
  wf_check images_only = true /\
  isDirectory images_only ["images"] = true /\
  images_only !! ["out"] = None /\
  images_only !! ["images"; "logo.png"] = Some (File "PNG") /\
  copyDir 3 ["images"] ["out"] (images_only, []) =
    Some (images_only, [ENOENT ["out"; "logo.png"]]) /\
  images_only !! ["out"; "logo.png"] = None /\
  copyDirHelp 3 ["images"] ["out"; "images"] (images_only, []) =
    Some (images_only, [ENOENT ["out"; "images"]]) /\
  images_only !! ["out"; "images"; "logo.png"] = None.
Proof. split_and!; vm_compute; reflexivity. Qed.

Lemma copyDir_into_empty_directory
    (fs : fsys) (srcDirectory destDir : list string) (fuel : nat) :
  wf fs ->
  isDirectory fs srcDirectory = true ->
  readdir fs destDir = inr [] ->
  apart srcDirectory destDir ->
  height fs < fuel ->
  exists fs',
    copyDir fuel srcDirectory destDir (fs, []) = Some (fs', []) /\
    wf fs' /\
    mirrors fs srcDirectory destDir fs' /\
    fs' !! destDir = Some Dir /\
    (forall p, ~ destDir `prefix_of` p -> fs' !! p = fs !! p).
Proof.
  intros Hwf Hsrc Hdest Hap Hfuel.
  assert (fs !! srcDirectory = Some Dir) as Hsrcdir.
  { unfold isDirectory in Hsrc. by destruct (fs !! srcDirectory) as [[]|]. }
  assert (fs !! destDir = Some Dir) as Hdestdir.
  { unfold readdir in Hdest. by destruct (fs !! destDir) as [[]|]. }
  assert (forall c, fs !! (destDir ++ [c]) = None) as Hempty.
  { intros c. apply eq_None_not_Some. intros Hs.
    apply (elem_of_readdir _ _ _ Hdest) in Hs. by apply elem_of_nil in Hs. }
  unfold copyDir.
  destruct (readdir fs srcDirectory) as [e|items] eqn:Hrd.
  { unfold readdir in Hrd. by rewrite Hsrcdir in Hrd. }
  pose proof (elem_of_readdir _ _ _ Hrd) as Hitems.
  destruct (forEach_copies fuel (height fs) srcDirectory destDir fs [] Hap)
    with (items := items) (fs := fs)
    as (fs' & Hrun & Hwf' & Hmir & Hframe).
  { intros c rel Hrel. apply height_bound in Hrel.
    rewrite length_app in Hrel. cbn in Hrel. lia. }
  { intros _. by apply copyDirHelp_copies. }
  { by apply (NoDup_readdir fs srcDirectory). }
  { done. }
  { done. }
  { done. }
  { intros c Hc. split; [by apply Hitems | done]. }
  exists fs'. split_and!; [done | done | | |].
  - intros [|c rel] Hrel; [done|].
    destruct (decide (c ∈ items)) as [Hc|Hc]; [by apply Hmir|].
    rewrite Hframe.
    + change (c :: rel) with ([c] ++ rel). rewrite !app_assoc.
      rewrite (wf_absent_below fs _ _ Hwf (Hempty c)).
      symmetry. apply wf_absent_below; [done|].
      apply eq_None_not_Some. intros Hs. by apply Hc, Hitems.
    + intros c' Hc'. apply child_not_under_sibling. intros ->. done.
  - rewrite Hframe; [done|]. intros c _. apply prefix_snoc_not.
  - intros p Hp. apply Hframe.
    intros c _ Hpre. by apply Hp, (prefix_app_l _ _ [c]).
Qed.

Lemma copyDirHelp_onto_absent_destination
    (fs : fsys) (src dest : list string) (fuel : nat) :
  wf fs ->
  isDirectory fs src = true ->
  fs !! dest = None ->
  isDirectory fs (parent dest) = true ->
  apart src dest ->
  height fs < fuel ->
  exists fs',
    copyDirHelp fuel src dest (fs, []) = Some (fs', []) /\
    wf fs' /\
    mirrors fs src dest fs' /\
    fs' !! dest = Some Dir /\
    (forall p, ~ dest `prefix_of` p -> fs' !! p = fs !! p).
Proof.
  intros Hwf Hsrc Hdest Hparent Hap Hfuel.
  assert (fs !! src = Some Dir) as Hsrcdir.
  { unfold isDirectory in Hsrc. by destruct (fs !! src) as [[]|]. }
  assert (dest <> []) as Hne.
  { intros ->. destruct Hwf as [Hroot _]. congruence. }
  rewrite (app_removelast_last "" Hne) in *.
  set (dir := removelast dest) in *. set (name := List.last dest "") in *.
  unfold parent in Hparent. rewrite removelast_last in Hparent.
  destruct (copyDirHelp_copies fuel (height fs) Hfuel src dir name fs [])
    as (fs' & Hrun & Hwf' & Hmir & Hframe).
  { done. }
  { done. }
  { by rewrite Hsrcdir. }
  { unfold isDirectory in Hparent. by destruct (fs !! dir) as [[]|]. }
  { done. }
  { intros rel Hrel. apply height_bound in Hrel.
    rewrite length_app in Hrel. lia. }
  exists fs'. split_and!; [done | done | | | done].
  - intros rel _. apply Hmir.
  - specialize (Hmir []). rewrite !app_nil_r in Hmir. congruence.
Qed.

(** C9, amended: for a well-formed file system, a source directory and a
    destination neither of which lies under the other (and fuel above the
    height of the file system), nothing is rejected and afterwards the
    destination holds exactly the paths that are under the source,
    directories for directories and files of the same contents for files,
    with no path outside the destination changed, in two cases:
    [copyDir] onto a destination that exists as an empty directory, and
    [copyDirHelp] onto a destination that is absent while its parent
    directory exists. *)
Theorem copyDir_mirrors_source
    (fs : fsys) (src dest : list string) (fuel : nat) :
  wf fs ->
  isDirectory fs src = true ->
  apart src dest ->
  height fs < fuel ->
  (readdir fs dest = inr [] ->
   exists fs',
     copyDir fuel src dest (fs, []) = Some (fs', []) /\
     wf fs' /\
     mirrors fs src dest fs' /\
     fs' !! dest = Some Dir /\
     (forall p, ~ dest `prefix_of` p -> fs' !! p = fs !! p)) /\
  (fs !! dest = None ->
   isDirectory fs (parent dest) = true ->
   exists fs',
     copyDirHelp fuel src dest (fs, []) = Some (fs', []) /\
     wf fs' /\
     mirrors fs src dest fs' /\
     fs' !! dest = Some Dir /\
     (forall p, ~ dest `prefix_of` p -> fs' !! p = fs !! p)).
Proof.
  intros Hwf Hsrc Hap Hfuel. split.
  - intros Hdest. by apply copyDir_into_empty_directory.
  - intros Hdest Hparent. by apply copyDirHelp_onto_absent_destination.
Qed.

Lemma copyDir_mirrors_source_witness :
  (exists fs',
     copyDir 3 ["images"] ["out"] (images_and_out, []) = Some (fs', []) /\
     wf fs' /\
     mirrors images_and_out ["images"] ["out"] fs' /\
     fs' !! ["out"] = Some Dir /\
     (forall p, ~ ["out"] `prefix_of` p -> fs' !! p = images_and_out !! p)) /\
  (exists fs',
     copyDirHelp 3 ["images"] ["out"] (images_only, []) = Some (fs', []) /\
     wf fs' /\
     mirrors images_only ["images"] ["out"] fs' /\
     fs' !! ["out"] = Some Dir /\
     (forall p, ~ ["out"] `prefix_of` p -> fs' !! p = images_only !! p)).
Proof.
  split.
  - apply (copyDir_mirrors_source images_and_out ["images"] ["out"] 3).
    + apply wf_check_sound. vm_compute. reflexivity.
    + vm_compute. reflexivity.
    + split; intros [k Hk]; discriminate.
    + vm_compute. lia.
    + vm_compute. reflexivity.
  - apply (copyDir_mirrors_source images_only ["images"] ["out"] 3).
    + apply wf_check_sound. vm_compute. reflexivity.
    + vm_compute. reflexivity.
    + split; intros [k Hk]; discriminate.
    + vm_compute. lia.
    + vm_compute. reflexivity.
    + vm_compute. reflexivity.
Defined.

(** ** Witnesses on the sample inputs *)

Lemma errors_message_does_not_halt_witness :
  exists w1 w2,
    toJsPort_handler "1.0" sample_seo sample_manifest sample_dirname
      initialWorld sample_errors = (w1, Normal) /\
    foundErrors w1 = true /\
    stderr w1 = stderr initialWorld ++ [CPayload (hd_error (args sample_errors))] /\
    stdout w1 = stdout initialWorld /\
    tasks w1 = tasks initialWorld /\
    dispatch "1.0" sample_seo sample_manifest sample_dirname initialWorld
      (sample_errors :: map pageProgress [sample_page "blog/post-1"]) =
      (w2, Normal) /\
    tasks w2 =
      tasks initialWorld ++
      map (outputString_task "1.0" sample_seo) [sample_page "blog/post-1"] /\
    (forall page, page ∈ [sample_page "blog/post-1"] ->
       (indexHtmlPath page, wrapHtml "1.0" sample_seo page) ∈ written w2 /\
       (contentJsonPath page, stringify (contentJsonObject page)) ∈ written w2) /\
    foundErrors w2 = true /\
    beforeExit w2 = 1%Z.
Proof.
  apply (errors_message_does_not_halt "1.0" sample_seo sample_manifest
           sample_dirname initialWorld sample_errors [sample_page "blog/post-1"]).
  reflexivity.
Defined.

Lemma foundErrors_set_only_by_Errors_witness :
  foundErrors
    (dispatch "1.0" sample_seo sample_manifest sample_dirname initialWorld
       [sample_errors; sample_log; pageProgress (sample_page "blog/post-1")]).1
    = true /\
  foundErrors
    (dispatch "1.0" sample_seo sample_manifest sample_dirname initialWorld
       [sample_log; pageProgress (sample_page "blog/post-1")]).1
    = false.
Proof.
  destruct (foundErrors_set_only_by_Errors "1.0" sample_seo sample_manifest
              sample_dirname)
    as (_ & _ & _ & _ & _ & _ & Hnormal).
  split; by rewrite Hnormal.
Defined.

Lemma log_is_forwarded_without_file_io_witness :
  exists w',
    toJsPort_handler "1.0" sample_seo sample_manifest sample_dirname
      initialWorld sample_log = (w', Normal) /\
    stdout w' = stdout initialWorld ++ [CValue (value sample_log)] /\
    stderr w' = stderr initialWorld /\
    tasks w' = tasks initialWorld /\
    written w' = written initialWorld /\
    foundErrors w' = foundErrors initialWorld.
Proof.
  apply (log_is_forwarded_without_file_io "1.0" sample_seo sample_manifest
           sample_dirname initialWorld sample_log).
  reflexivity.
Defined.

Lemma index_route_collides_witness :
  exists w,
    dispatch "1.0" sample_seo sample_manifest sample_dirname initialWorld
      (map pageProgress
         [sample_page ""; sample_page "blog/post-1"; sample_page "blog/post-1/index"]) =
      (w, Normal) /\
    written w =
      [ ("dist//index.html", wrapHtml "1.0" sample_seo (sample_page ""));
        ("dist//content.json", stringify (contentJsonObject (sample_page "")));
        ("dist/blog/post-1/index.html",
         wrapHtml "1.0" sample_seo (sample_page "blog/post-1"));
        ("dist/blog/post-1/content.json",
         stringify (contentJsonObject (sample_page "blog/post-1")));
        ("dist/blog/post-1//index.html",
         wrapHtml "1.0" sample_seo (sample_page "blog/post-1/index"));
        ("dist/blog/post-1//content.json",
         stringify (contentJsonObject (sample_page "blog/post-1/index"))) ] /\
    map resolve
      ["dist//index.html"; "dist/blog/post-1/index.html";
       "dist/blog/post-1//index.html"] =
      [ resolve "dist/index.html"; resolve "dist/blog/post-1/index.html";
        resolve "dist/blog/post-1/index.html" ] /\
    resolve "dist/index.html" = ["dist"; "index.html"] /\
    resolve "dist/blog/post-1/index.html" = ["dist"; "blog"; "post-1"; "index.html"].
Proof.
  apply (index_route_collides "1.0" sample_seo sample_manifest sample_dirname
           (sample_page "") (sample_page "blog/post-1")
           (sample_page "blog/post-1/index")); reflexivity.
Defined.

(** C2, as the spec states it, fails: for a page whose html is
    [<p>hi</p>], whose contentJson is [{a:1}] and whose body is [# hi],
    the [body] field of content.json holds [# hi], not the html. *)
Lemma content_json_body_is_not_the_html :
  Arg.html (sample_page "hello") = "<p>hi</p>" /\
  Arg.contentJson (sample_page "hello") = JObj [("a", JNum 1)] /\
  last (outputString_task "1.0" sample_seo (sample_page "hello")) =
    Some (WriteFile "dist/hello/content.json"
            ("{" +:+ q +:+ "body" +:+ q +:+ ":" +:+ q +:+ "# hi" +:+ q +:+ "," +:+
             q +:+ "staticData" +:+ q +:+ ":{" +:+ q +:+ "a" +:+ q +:+ ":1}}")).
Proof. split_and!; reflexivity. Qed.

(** * Further facts *)

(** ** Routes and output paths *)

(** X1: [cleanRoute] removes one slash at most: the leading slash of a
    route that starts with one (a trailing slash is then kept), otherwise
    the trailing slash of a route that ends with one, otherwise nothing. *)
Theorem cleanRoute_removes_one_slash (route : string) :
  (forall rest, cleanRoute ("/" +:+ rest) = rest) /\
  match strip_prefix "/" route with
  | Some rest => cleanRoute route = rest
  | None =>
      if ends_with "/" route then route = cleanRoute route +:+ "/"
      else cleanRoute route = route
  end.
Proof.
  split; [reflexivity|].
  unfold cleanRoute, replace_at_end, ends_with.
  destruct (strip_prefix "/" route) as [rest|]; [done|].
  destruct (strip_suffix "/" route) as [t|] eqn:E; [|done].
  apply strip_suffix_Some in E. by rewrite str_app_nil_r.
Qed.

Lemma resolve_app (a b : string) :
  resolve (a +:+ "/" +:+ b) = resolve a ++ resolve b.
Proof.
  unfold resolve. change ("/" +:+ b) with (String "/" b).
  by rewrite split_app_sep, filter_app.
Qed.

Lemma resolve_page_file (route file : string) :
  resolve ("dist/" +:+ normalizedRoute route +:+ "/" +:+ file) =
    pageDirectory route ++ resolve file.
Proof.
  unfold pageDirectory.
  change ("dist/" +:+ normalizedRoute route +:+ "/" +:+ file)
    with ("dist" +:+ "/" +:+ normalizedRoute route +:+ "/" +:+ file).
  rewrite (resolve_app "dist"), resolve_app. reflexivity.
Qed.

Lemma str_app_last_char (s t : string) (a b : ascii) :
  s +:+ String a "" = t +:+ String b "" -> a = b.
Proof.
  revert t. induction s as [|c s IH]; intros [|d t] H; cbn in H.
  - congruence.
  - injection H as _ H. by destruct t.
  - injection H as _ H. by destruct s.
  - injection H as _ H. by apply (IH t).
Qed.

Lemma normalizedRoute_index (r : string) : normalizedRoute (r +:+ "index") = r.
Proof. unfold normalizedRoute. by rewrite replace_at_end_app, str_app_nil_r. Qed.

Lemma normalizedRoute_other (r : string) :
  ends_with "index" r = false -> normalizedRoute r = r.
Proof. apply replace_at_end_no_match. Qed.

Lemma ends_with_index_slash (r : string) : ends_with "index" (r +:+ "/") = false.
Proof.
  destruct (ends_with "index" (r +:+ "/")) eqn:E; [|done].
  apply ends_with_true in E as [t Ht].
  change "index" with ("inde" +:+ "x") in Ht. rewrite <- str_app_assoc in Ht.
  by apply str_app_last_char in Ht.
Qed.

Lemma ends_with_index_leading_slash (r : string) :
  ends_with "index" r = false -> ends_with "index" ("/" +:+ r) = false.
Proof.
  intros Hr. destruct (ends_with "index" ("/" +:+ r)) eqn:E; [|done].
  apply ends_with_true in E as [[|c t] Ht]; [done|].
  cbn in Ht. injection Ht as _ Ht.
  assert (ends_with "index" r = true) by (apply ends_with_true; eauto).
  congruence.
Qed.

(** X2: the three requests of a page's task agree on the directory: the
    directory handed to [tryMkdir] resolves to the directory of the page,
    [dist] followed by the components of the normalized route, and the
    two files are written to [index.html] and [content.json] in it. *)
Theorem page_files_lie_in_the_ensured_directory
    (cliVersion : string) (seo_toString : list SeoTag -> string) (page : Arg.t) :
  exists dir html json,
    outputString_task cliVersion seo_toString page =
      [ TryMkdir dir;
        WriteFile html (wrapHtml cliVersion seo_toString page);
        WriteFile json (stringify (contentJsonObject page)) ] /\
    resolve dir = pageDirectory (Arg.route page) /\
    resolve html = pageDirectory (Arg.route page) ++ ["index.html"] /\
    resolve json = pageDirectory (Arg.route page) ++ ["content.json"].
Proof.
  eexists _, _, _. split; [reflexivity|]. split_and!.
  - change ("./dist/" +:+ normalizedRoute (Arg.route page))
      with ("." +:+ "/" +:+ "dist" +:+ "/" +:+ normalizedRoute (Arg.route page)).
    by rewrite !resolve_app.
  - apply (resolve_page_file _ "index.html").
  - apply (resolve_page_file _ "content.json").
Qed.

(** X3: routes that share an output directory.  A route made of [r]
    followed by the letters [index] is written where [r] resolves; so for
    a route [r] that does not end with [index], the routes [r/index],
    [r/] and [/r] are all written to the directory of [r], each
    overwriting the files of the others. *)
Theorem routes_sharing_a_directory (r : string) :
  pageDirectory (r +:+ "index") = "dist" :: resolve r /\
  (ends_with "index" r = false ->
   pageDirectory r = "dist" :: resolve r /\
   pageDirectory (r +:+ "/index") = pageDirectory r /\
   pageDirectory (r +:+ "/") = pageDirectory r /\
   pageDirectory ("/" +:+ r) = pageDirectory r).
Proof.
  unfold pageDirectory. split; [by rewrite normalizedRoute_index|].
  intros Hr. rewrite (normalizedRoute_other r Hr). split_and!.
  - done.
  - change (r +:+ "/index") with (r +:+ "/" +:+ "index").
    rewrite <- str_app_assoc, normalizedRoute_index.
    rewrite <- (str_app_nil_r (r +:+ "/")), str_app_assoc, resolve_app.
    by rewrite app_nil_r.
  - rewrite (normalizedRoute_other _ (ends_with_index_slash r)).
    rewrite <- (str_app_nil_r (r +:+ "/")), str_app_assoc, resolve_app.
    by rewrite app_nil_r.
  - rewrite (normalizedRoute_other _ (ends_with_index_leading_slash r Hr)).
    change ("/" +:+ r) with ("" +:+ "/" +:+ r). by rewrite resolve_app.
Qed.

Lemma routes_sharing_a_directory_witness :
  pageDirectory "blog/post-1" = ["dist"; "blog"; "post-1"] /\
  pageDirectory "blog/post-1/index" = pageDirectory "blog/post-1" /\
  pageDirectory "blog/post-1/" = pageDirectory "blog/post-1" /\
  pageDirectory "/blog/post-1" = pageDirectory "blog/post-1".
Proof.
  apply (proj2 (routes_sharing_a_directory "blog/post-1")). reflexivity.
Defined.

(** X4: for a route [r/index] the base href climbs once more than [r] has
    [/]-separated pieces, while the page is written to the directory of
    [r], which lies at most that many pieces below [dist]. *)
Theorem index_route_base_href_climbs_past_its_directory (r : string) :
  baseRoute (r +:+ "/index") = repeat_string "../" (S (length (split "/" r))) /\
  pageDirectory (r +:+ "/index") = "dist" :: resolve r /\
  length (resolve r) <= length (split "/" r).
Proof.
  split_and!.
  - rewrite baseRoute_segments.
    destruct (String.eqb_spec (r +:+ "/index") "") as [E|_].
    { by apply str_app_eq_nil in E as [_ ?]. }
    destruct (String.eqb_spec (r +:+ "/index") "/") as [E|_].
    { apply (f_equal String.length) in E. rewrite str_length_app in E.
      cbn in E. lia. }
    cbn [orb]. change ("/index") with (String "/" "index").
    rewrite split_app_sep, length_app. cbn [split length Ascii.eqb].
    f_equal. cbn. lia.
  - change (r +:+ "/index") with (r +:+ "/" +:+ "index").
    rewrite <- str_app_assoc. unfold pageDirectory.
    rewrite normalizedRoute_index.
    rewrite <- (str_app_nil_r (r +:+ "/")), str_app_assoc, resolve_app.
    by rewrite app_nil_r.
  - unfold resolve. apply length_filter.
Qed.

(** ** More on the dispatcher *)

Section DispatcherFacts.

Variable cliVersion : string.
Variable seo_toString : list SeoTag -> string.
Variable generateManifest : json -> json.
Variable path_dirname : string -> string.

Local Abbreviation generateFile_task' := (generateFile_task path_dirname).
Local Abbreviation generateFiles' := (generateFiles path_dirname).
Local Abbreviation handler :=
  (toJsPort_handler cliVersion seo_toString generateManifest path_dirname).
Local Abbreviation dispatch' :=
  (dispatch cliVersion seo_toString generateManifest path_dirname).
Local Abbreviation runElmApp' :=
  (runElmApp cliVersion seo_toString generateManifest path_dirname).

Lemma dispatch_app (w : World) (before after : list FromElm) :
  dispatch' w (before ++ after) =
    match dispatch' w before with
    | (w', Normal) => dispatch' w' after
    | (w', Throw e) => (w', Throw e)
    end.
Proof.
  revert w. induction before as [|m before IH]; intros w; [done|].
  cbn [app dispatch]. destruct (handler w m) as [w' [|e]]; [apply IH | done].
Qed.

(** X5: a message that is no [log] command and carries none of the three
    known tags is fatal: the whole message is logged, the handler throws
    [Unknown port tag.], none of the messages after it is handled (no
    task is started, the flag and the error stream stay as they were),
    and the process ends with code 1 even when no [Errors] message was
    seen. *)
Theorem unknown_tag_ends_the_run
    (before after : list FromElm) (fromElm : FromElm) (w1 : World) :
  is_unknown fromElm = true ->
  dispatch' initialWorld before = (w1, Normal) ->
  dispatch' initialWorld (before ++ fromElm :: after) =
    (console_log (CMessage fromElm) w1, Throw "Unknown port tag.") /\
  runElmApp' (before ++ fromElm :: after) =
    (console_log (CMessage fromElm) w1, 1%Z).
Proof.
  intros Hunknown Hbefore. unfold is_unknown in Hunknown.
  apply andb_true_iff in Hunknown as [Hunknown He].
  apply andb_true_iff in Hunknown as [Hunknown Hp].
  apply andb_true_iff in Hunknown as [Hl Hi].
  apply negb_true_iff in Hl, Hi, Hp, He.
  assert (dispatch' initialWorld (before ++ fromElm :: after) =
          (console_log (CMessage fromElm) w1, Throw "Unknown port tag.")) as Hrun.
  { rewrite dispatch_app, Hbefore. cbn [dispatch].
    unfold toJsPort_handler. by rewrite Hl, Hi, Hp, He. }
  split; [done|]. unfold runElmApp. by rewrite Hrun.
Qed.

Lemma generateFiles_spec (files : list GenFile.t) (w : World) :
  generateFiles' files w =
    {| foundErrors := foundErrors w;
       stdout := stdout w ++
                 map (fun f => CText ("Generating file /" +:+ GenFile.path f)) files;
       stderr := stderr w;
       tasks := tasks w ++ map generateFile_task' files |}.
Proof.
  unfold generateFiles. revert w.
  induction files as [|f files IH]; intros w; cbn [foldl map].
  - rewrite !app_nil_r. by destruct w.
  - rewrite IH. cbn. by rewrite <- !app_assoc.
Qed.

Lemma written_generateFiles (files : list GenFile.t) (w : World) :
  written (generateFiles' files w) =
    written w ++
    map (fun f => ("dist/" +:+ GenFile.path f, GenFile.content f)) files.
Proof.
  rewrite generateFiles_spec. unfold written. cbn.
  rewrite map_app, concat_app. f_equal.
  induction files as [|f files IH]; [done|]. cbn. by rewrite IH.
Qed.

(** X6: an [InitialData] message starts one task that writes
    [dist/manifest.json] with the serialized manifest and then one task
    per declared file, in the order declared; each file is written under
    [dist/] with its content unchanged, one line is logged per file, and
    the flag and the error stream are left alone. *)
Theorem initialData_writes_manifest_and_files
    (w : World) (manifest : json) (files : list GenFile.t) :
  exists w',
    handler w (initialData manifest files) = (w', Normal) /\
    tasks w' =
      tasks w ++
      [WriteFile "dist/manifest.json" (stringify (generateManifest manifest))]
      :: map generateFile_task' files /\
    written w' =
      written w ++
      ("dist/manifest.json", stringify (generateManifest manifest))
      :: map (fun f => ("dist/" +:+ GenFile.path f, GenFile.content f)) files /\
    stdout w' =
      stdout w ++
      map (fun f => CText ("Generating file /" +:+ GenFile.path f)) files /\
    stderr w' = stderr w /\
    foundErrors w' = foundErrors w.
Proof.
  eexists. split; [reflexivity|].
  split_and!.
  - rewrite generateFiles_spec. cbn. by rewrite <- app_assoc.
  - rewrite written_generateFiles. unfold written at 1. cbn.
    by rewrite map_app, concat_app, <- app_assoc.
  - by rewrite generateFiles_spec.
  - by rewrite generateFiles_spec.
  - by rewrite generateFiles_spec.
Qed.

Lemma is_string_true (expected : string) (actual : option string) :
  is_string expected actual = true <-> actual = Some expected.
Proof.
  destruct actual as [a|]; cbn; [|done].
  rewrite String.eqb_eq. split; congruence.
Qed.

Lemma is_string_false (expected : string) (actual : option string) :
  is_string expected actual = false <-> actual <> Some expected.
Proof.
  rewrite <- is_string_true. by destruct (is_string expected actual).
Qed.

Lemma handler_writes (w : World) (fromElm : FromElm) (file data : string) :
  (file, data) ∈ written (handler w fromElm).1 ->
  (file, data) ∈ written w \/
  (command fromElm <> Some "log" /\
    ((tag fromElm = Some "InitialData" /\
      exists manifest files rest,
        args fromElm = PInitialData manifest files :: rest /\
        ((file = "dist/manifest.json" /\
          data = stringify (generateManifest manifest)) \/
         exists f, f ∈ files /\
                   file = "dist/" +:+ GenFile.path f /\
                   data = GenFile.content f)) \/
     (tag fromElm = Some "PageProgress" /\
      exists page rest,
        args fromElm = PPage page :: rest /\
        ((file = "dist/" +:+ normalizedRoute (Arg.route page) +:+ "/index.html" /\
          data = wrapHtml cliVersion seo_toString page) \/
         (file = "dist/" +:+ normalizedRoute (Arg.route page) +:+ "/content.json" /\
          data = stringify (contentJsonObject page)))))).
Proof.
  unfold toJsPort_handler.
  destruct (is_string "log" (command fromElm)) eqn:Hlog; [by left|].
  apply is_string_false in Hlog.
  destruct (is_string "InitialData" (tag fromElm)) eqn:Hi.
  { apply is_string_true in Hi.
    destruct (args fromElm) as [|[page|manifest files|j] rest]; try by left.
    cbn [fst]. rewrite written_generateFiles.
    intros [Hin|Hin]%elem_of_app.
    - unfold written in Hin. cbn in Hin.
      rewrite map_app, concat_app in Hin.
      apply elem_of_app in Hin as [Hin|Hin]; [by left|].
      cbn in Hin. apply elem_of_cons in Hin as [[= -> ->]|Hin];
        [|by apply elem_of_nil in Hin].
      right. split; [done|]. left. split; [done|].
      exists manifest, files, rest. split; [done|]. by left.
    - apply list_elem_of_fmap in Hin as (f & [= -> ->] & Hf).
      right. split; [done|]. left. split; [done|].
      exists manifest, files, rest. split; [done|]. right. by exists f. }
  destruct (is_string "PageProgress" (tag fromElm)) eqn:Hp.
  { apply is_string_true in Hp.
    destruct (args fromElm) as [|[page|manifest files|j] rest]; try by left.
    unfold written. cbn. rewrite map_app, concat_app. cbn.
    intros [Hin|Hin]%elem_of_app; [by left|].
    unfold indexHtmlPath, contentJsonPath in Hin.
    right. split; [done|]. right. split; [done|].
    exists page, rest. split; [done|].
    apply elem_of_cons in Hin as [[= -> ->]|Hin]; [by left|].
    apply elem_of_cons in Hin as [[= -> ->]|Hin]; [by right|].
    by apply elem_of_nil in Hin. }
  destruct (is_string "Errors" (tag fromElm)); by left.
Qed.

Lemma dispatch_writes (messages : list FromElm) (file data : string) :
  forall w,
    (file, data) ∈ written (dispatch' w messages).1 ->
    (file, data) ∈ written w \/
    exists fromElm, fromElm ∈ messages /\
    (command fromElm <> Some "log" /\
    ((tag fromElm = Some "InitialData" /\
      exists manifest files rest,
        args fromElm = PInitialData manifest files :: rest /\
        ((file = "dist/manifest.json" /\
          data = stringify (generateManifest manifest)) \/
         exists f, f ∈ files /\
                   file = "dist/" +:+ GenFile.path f /\
                   data = GenFile.content f)) \/
     (tag fromElm = Some "PageProgress" /\
      exists page rest,
        args fromElm = PPage page :: rest /\
        ((file = "dist/" +:+ normalizedRoute (Arg.route page) +:+ "/index.html" /\
          data = wrapHtml cliVersion seo_toString page) \/
         (file = "dist/" +:+ normalizedRoute (Arg.route page) +:+ "/content.json" /\
          data = stringify (contentJsonObject page)))))).
Proof.
  induction messages as [|m rest IH]; intros w; [by left|].
  cbn [dispatch].
  pose proof (handler_writes w m file data) as Hstep.
  destruct (handler w m) as [w' [|e]]; cbn [fst] in Hstep.
  - intros [Hin|(fromElm & Hin & Hsent)]%IH.
    + destruct (Hstep Hin) as [Hw|Hsent]; [by left|].
      right. exists m. split; [by left | done].
    + right. exists fromElm. split; [by right | done].
  - intros Hin. destruct (Hstep Hin) as [Hw|Hsent]; [by left|].
    right. exists m. split; [by left | done].
Qed.

(** X8: whatever the dispatcher writes during a run comes from a message
    of the run, and goes to a path that begins with [dist/].  A written
    file is the manifest or a declared file of an [InitialData] message
    (at [dist/manifest.json], and at [dist/] followed by the path as
    declared), or one of the two files of the page of a [PageProgress]
    message (at [dist/], the normalized route, and [/index.html] or
    [/content.json]); a [log] command, an [Errors] message and a message
    with an unknown tag write nothing. *)
Theorem run_writes_paths_under_dist
    (messages : list FromElm) (file data : string) :
  (file, data) ∈ written (runElmApp' messages).1 ->
  (exists rest, file = "dist/" +:+ rest) /\
  exists fromElm, fromElm ∈ messages /\
    command fromElm <> Some "log" /\
    ((tag fromElm = Some "InitialData" /\
      exists manifest files rest,
        args fromElm = PInitialData manifest files :: rest /\
        ((file = "dist/manifest.json" /\
          data = stringify (generateManifest manifest)) \/
         exists f, f ∈ files /\
                   file = "dist/" +:+ GenFile.path f /\
                   data = GenFile.content f)) \/
     (tag fromElm = Some "PageProgress" /\
      exists page rest,
        args fromElm = PPage page :: rest /\
        ((file = "dist/" +:+ normalizedRoute (Arg.route page) +:+ "/index.html" /\
          data = wrapHtml cliVersion seo_toString page) \/
         (file = "dist/" +:+ normalizedRoute (Arg.route page) +:+ "/content.json" /\
          data = stringify (contentJsonObject page))))).
Proof.
  intros Hin.
  assert ((file, data) ∈ written (dispatch' initialWorld messages).1) as Hrun.
  { unfold runElmApp in Hin.
    by destruct (dispatch' initialWorld messages) as [w [|e]]. }
  apply dispatch_writes in Hrun as [Hnil|(fromElm & Hmsg & Hsent)].
  { by apply elem_of_nil in Hnil. }
  split; [|by exists fromElm].
  destruct Hsent as (_ & [(_ & manifest & files & rest & _ & Hfile)
                         |(_ & page & rest & _ & Hfile)]).
  - destruct Hfile as [[-> _]|(f & _ & -> & _)]; by eexists.
  - destruct Hfile as [[-> _]|[-> _]]; by eexists.
Qed.

End DispatcherFacts.

(** ** More on the module transform *)

Lemma replace_first_absent (pat rep s : string) :
  contains pat s = false -> replace_first pat rep s = s.
Proof.
  induction s as [|c s IH]; cbn [contains replace_first].
  - by destruct (strip_prefix pat "").
  - destruct (strip_prefix pat (String c s)); [done|].
    intros H. by rewrite IH.
Qed.

(** X9: the transform does not look for the marker before it writes: an
    artifact without the marker is written back whole between the
    declaration of [scope] and the export statement, nothing being
    substituted and nothing failing.  Whatever the artifact holds, no
    other file changes, and when the file cannot be read nothing is
    written. *)
Theorem elmToEsm_without_marker
    (elmPath : string) (files : gmap string string) :
  (forall elmEs3,
     files !! elmPath = Some elmEs3 ->
     contains marker elmEs3 = false ->
     elmToEsm elmPath files =
       Some (<[elmPath :=
                (nl +:+ "const scope = {};" +:+ nl) +:+ elmEs3 +:+
                ("export const { Elm } = scope;" +:+ nl +:+ nl)]> files)) /\
  (forall files' other,
     elmToEsm elmPath files = Some files' ->
     other <> elmPath -> files' !! other = files !! other) /\
  (files !! elmPath = None -> elmToEsm elmPath files = None).
Proof.
  unfold elmToEsm. split_and!.
  - intros elmEs3 -> Hno. unfold elmToEsm_text.
    by rewrite (replace_first_absent _ _ _ Hno).
  - intros files' other. destruct (files !! elmPath); [|done].
    intros [= <-] Hne. by apply lookup_insert_ne.
  - by intros ->.
Qed.

Lemma elmToEsm_without_marker_witness :
  elmToEsm "dist/elm.js" {[ "dist/elm.js" := "var Elm = {};" ]} =
    Some (<["dist/elm.js" :=
             (nl +:+ "const scope = {};" +:+ nl) +:+ "var Elm = {};" +:+
             ("export const { Elm } = scope;" +:+ nl +:+ nl)]>
            {[ "dist/elm.js" := "var Elm = {};" ]}).
Proof.
  apply (proj1 (elmToEsm_without_marker "dist/elm.js"
                  {[ "dist/elm.js" := "var Elm = {};" ]}));
    reflexivity.
Defined.

(** ** More on the directory copier *)

Lemma copyDirHelp_absent_parent_of_entry (fuel : nat) (src dir : list string)
    (name : string) (fs : fsys) (rejected : list FsError) :
  wf fs -> fs !! dir = None -> is_Some (fs !! src) ->
  copyDirHelp (S fuel) src (dir ++ [name]) (fs, rejected) =
    Some (fs, rejected ++ [ENOENT (dir ++ [name])]).
Proof.
  intros Hwf Hdir [v Hv].
  pose proof (wf_absent_below fs dir [name] Hwf Hdir) as Hnew.
  cbn [copyDirHelp]. unfold isDirectory, mkdir, copyFile, parent.
  rewrite Hv, Hnew, removelast_last, Hdir. by destruct v.
Qed.

(** X10: [copyDir] onto a destination that does not exist copies
    nothing, whatever the source directory holds: the copy of every entry
    of the source is rejected with ENOENT, one rejection per entry in the
    order [readdir] lists them, and the file system is left as it was. *)
Theorem copyDir_absent_destination_rejects_every_entry
    (fuel : nat) (srcDirectory destDir : list string) (fs : fsys)
    (items : list string) :
  wf fs ->
  fs !! destDir = None ->
  readdir fs srcDirectory = inr items ->
  copyDir (S fuel) srcDirectory destDir (fs, []) =
    Some (fs, map (fun c => ENOENT (destDir ++ [c])) items).
Proof.
  intros Hwf Hdest Hrd. unfold copyDir. rewrite Hrd.
  assert (forall c, c ∈ items -> is_Some (fs !! (srcDirectory ++ [c]))) as Hitems.
  { intros c. apply (elem_of_readdir _ _ _ Hrd). }
  clear Hrd.
  assert (forall rejected,
            forEach
              (fun c => copyDirHelp (S fuel) (srcDirectory ++ [c]) (destDir ++ [c]))
              items (fs, rejected) =
            Some (fs, rejected ++ map (fun c => ENOENT (destDir ++ [c])) items))
    as Hloop; [|apply Hloop].
  induction items as [|c items IH]; intros rejected; cbn [forEach map].
  - by rewrite app_nil_r.
  - rewrite copyDirHelp_absent_parent_of_entry; [|done|done|].
    + rewrite IH; [by rewrite <- app_assoc|].
      intros c' Hc'. apply Hitems. by right.
    + apply Hitems. by left.
Qed.

Lemma copyDir_absent_destination_rejects_every_entry_witness :
  copyDir 1 ["images"] ["out"] (images_only, []) =
    Some (images_only, map (fun c => ENOENT (["out"] ++ [c])) ["logo.png"]).
Proof.
  apply (copyDir_absent_destination_rejects_every_entry 0 ["images"] ["out"]
           images_only ["logo.png"]).
  - apply wf_check_sound. vm_compute. reflexivity.
  - vm_compute. reflexivity.
  - vm_compute. reflexivity.
Defined.

Lemma copyDirHelp_onto_copy (fuel : nat) (src dest : list string) (c : string)
    (fs : fsys) (rejected : list FsError) :
  fs !! dest = Some Dir ->
  is_Some (fs !! (src ++ [c])) ->
  fs !! (dest ++ [c]) = fs !! (src ++ [c]) ->
  copyDirHelp (S fuel) (src ++ [c]) (dest ++ [c]) (fs, rejected) =
    Some (fs, rejected ++
              (if isDirectory fs (src ++ [c]) then [EEXIST (dest ++ [c])] else [])).
Proof.
  intros Hdest [v Hv] Hsame. rewrite Hv in Hsame.
  cbn [copyDirHelp]. unfold isDirectory, mkdir, copyFile, parent.
  rewrite Hv, Hsame, removelast_last, Hdest.
  destruct v as [data|]; [|done].
  by rewrite insert_id, app_nil_r.
Qed.

(** X11: the copy cannot be run twice to any effect.  After [copyDir]
    has mirrored the source into an empty destination, a second
    [copyDir] of the same source onto the same destination leaves the
    file system as the first left it: every file is copied again over
    its copy, and the copy of every subdirectory is rejected with EEXIST
    without its contents being visited. *)
Theorem copyDir_second_run_changes_nothing
    (fs : fsys) (srcDirectory destDir : list string) (fuel : nat) :
  wf fs ->
  isDirectory fs srcDirectory = true ->
  readdir fs destDir = inr [] ->
  apart srcDirectory destDir ->
  height fs < fuel ->
  exists fs' items,
    copyDir fuel srcDirectory destDir (fs, []) = Some (fs', []) /\
    readdir fs' srcDirectory = inr items /\
    copyDir fuel srcDirectory destDir (fs', []) =
      Some (fs',
            map (fun c => EEXIST (destDir ++ [c]))
              (filter (fun c => isDirectory fs (srcDirectory ++ [c]) = true) items)).
Proof.
  intros Hwf Hsrc Hdest Hap Hfuel.
  destruct (copyDir_into_empty_directory fs srcDirectory destDir fuel)
    as (fs' & Hrun & Hwf' & Hmir & Hdestdir & Hframe); try done.
  assert (forall rel, fs' !! (srcDirectory ++ rel) = fs !! (srcDirectory ++ rel))
    as Hsame.
  { intros rel. apply Hframe. intros [k Hk].
    by apply (apart_no_common _ _ rel k) in Hap. }
  assert (fs' !! srcDirectory = Some Dir) as Hsrc'.
  { rewrite <- (app_nil_r srcDirectory), Hsame, app_nil_r.
    unfold isDirectory in Hsrc. by destruct (fs !! srcDirectory) as [[]|]. }
  destruct (readdir fs' srcDirectory) as [e|items] eqn:Hrd.
  { unfold readdir in Hrd. by rewrite Hsrc' in Hrd. }
  exists fs', items. split_and!; [done | done |].
  unfold copyDir. rewrite Hrd.
  destruct fuel as [|fuel]; [lia|].
  assert (forall c, c ∈ items -> is_Some (fs' !! (srcDirectory ++ [c]))) as Hitems.
  { intros c. apply (elem_of_readdir _ _ _ Hrd). }
  clear Hrd Hrun.
  assert (forall rejected,
            forEach
              (fun c => copyDirHelp (S fuel) (srcDirectory ++ [c]) (destDir ++ [c]))
              items (fs', rejected) =
            Some (fs',
                  rejected ++
                  map (fun c => EEXIST (destDir ++ [c]))
                    (filter (fun c => isDirectory fs (srcDirectory ++ [c]) = true)
                       items)))
    as Hloop; [|apply Hloop].
  induction items as [|c items IH]; intros rejected; cbn [forEach].
  - by rewrite app_nil_r.
  - rewrite copyDirHelp_onto_copy; [|done| |].
    + rewrite IH by (intros c' Hc'; apply Hitems; by right).
      unfold isDirectory at 1. rewrite Hsame.
      fold (isDirectory fs (srcDirectory ++ [c])).
      destruct (isDirectory fs (srcDirectory ++ [c])) eqn:Hdir.
      * rewrite filter_cons_True by done. cbn [map]. by rewrite <- app_assoc.
      * rewrite filter_cons_False by (by rewrite Hdir). by rewrite app_nil_r.
    + apply Hitems. by left.
    + rewrite Hsame. by apply Hmir.
Qed.

Lemma copyDir_second_run_changes_nothing_witness :
  exists fs' items,
    copyDir 3 ["images"] ["out"] (images_and_out, []) = Some (fs', []) /\
    readdir fs' ["images"] = inr items /\
    copyDir 3 ["images"] ["out"] (fs', []) =
      Some (fs',
            map (fun c => EEXIST (["out"] ++ [c]))
              (filter (fun c => isDirectory images_and_out (["images"] ++ [c]) = true)
                 items)).
Proof.
  apply (copyDir_second_run_changes_nothing images_and_out ["images"] ["out"] 3).
  - apply wf_check_sound. vm_compute. reflexivity.
  - vm_compute. reflexivity.
  - vm_compute. reflexivity.
  - split; intros [k Hk]; discriminate.
  - vm_compute. lia.
Defined.

Lemma only_adds_refl (st : state) : only_adds st st.
Proof. by split_and!. Qed.

Lemma only_adds_trans (st1 st2 st3 : state) :
  only_adds st1 st2 -> only_adds st2 st3 -> only_adds st1 st3.
Proof.
  intros (H1 & H2 & H3 & H4) (H1' & H2' & H3' & H4').
  split_and!; [by auto | by auto | by etrans | by auto].
Qed.

Lemma only_adds_reject (fs : fsys) (rejected : list FsError) (e : FsError) :
  only_adds (fs, rejected) (fs, rejected ++ [e]).
Proof. split_and!; [done | done | by apply prefix_app_r | done]. Qed.

Lemma wf_overwrite_file (fs : fsys) (p : list string) (data data' : string) :
  wf fs -> fs !! p = Some (File data) -> wf (<[p := File data']> fs).
Proof.
  intros [Hroot Hup] Hp. split.
  - rewrite lookup_insert_ne; [done|]. intros ->. congruence.
  - intros q c Hqc.
    assert (is_Some (fs !! (q ++ [c]))) as Hold.
    { destruct (decide (p = q ++ [c])) as [<-|Hne]; [by eauto|].
      by rewrite lookup_insert_ne in Hqc. }
    pose proof (Hup q c Hold) as Hq.
    rewrite lookup_insert_ne; [done|]. intros ->. congruence.
Qed.

Lemma only_adds_insert (fs : fsys) (p : list string) (v : node)
    (rejected : list FsError) :
  fs !! p <> Some Dir ->
  (match fs !! p with Some _ => v <> Dir | None => True end) ->
  fs !! parent p = Some Dir ->
  only_adds (fs, rejected) (<[p := v]> fs, rejected).
Proof.
  intros Hnodir Hkind Hparent. split_and!; cbn.
  - intros q. destruct (decide (p = q)) as [<-|Hne].
    + by rewrite lookup_insert_eq.
    + by rewrite lookup_insert_ne.
  - intros q Hq. rewrite lookup_insert_ne; [done|]. by intros ->.
  - done.
  - intros Hwf.
    assert (p <> []) as Hne.
    { intros ->. destruct Hwf as [Hroot _]. congruence. }
    rewrite (app_removelast_last "" Hne) in *.
    unfold parent in Hparent. rewrite removelast_last in Hparent.
    destruct (fs !! (removelast p ++ [List.last p ""])) as [[data|]|] eqn:E.
    + destruct v as [data'|]; [|done]. by apply (wf_overwrite_file fs _ data).
    + done.
    + by apply wf_insert.
Qed.

Lemma forEach_only_adds (f : string -> state -> option state)
    (items : list string) :
  (forall c st st', f c st = Some st' -> only_adds st st') ->
  forall st st', forEach f items st = Some st' -> only_adds st st'.
Proof.
  intros Hf. induction items as [|c items IH]; intros st st'; cbn [forEach].
  - intros [= <-]. apply only_adds_refl.
  - destruct (f c st) as [st1|] eqn:E; [|done].
    intros Hrest. eapply only_adds_trans; [by eapply Hf | by apply IH].
Qed.

Lemma copyDirHelp_only_adds (fuel : nat) :
  forall src dest st st',
    copyDirHelp fuel src dest st = Some st' -> only_adds st st'.
Proof.
  induction fuel as [|fuel IH]; intros src dest [fs rejected] st'; [done|].
  cbn [copyDirHelp]. destruct (isDirectory fs src).
  - unfold mkdir.
    destruct (fs !! dest) as [v|] eqn:Hd.
    { intros [= <-]. apply only_adds_reject. }
    destruct (fs !! parent dest) as [[data|]|] eqn:Hp;
      try (intros [= <-]; apply only_adds_reject).
    destruct (readdir _ src) as [e|items].
    + intros [= <-].
      eapply only_adds_trans; [|apply only_adds_reject].
      apply only_adds_insert; [by rewrite Hd | by rewrite Hd | done].
    + intros Hrun.
      eapply only_adds_trans;
        [apply (only_adds_insert fs dest Dir);
         [by rewrite Hd | by rewrite Hd | done]|].
      eapply forEach_only_adds; [|exact Hrun].
      intros c st1 st2. apply IH.
  - unfold copyFile.
    destruct (fs !! src) as [[data|]|];
      try (intros [= <-]; apply only_adds_reject).
    destruct (fs !! dest) as [[data'|]|] eqn:Hd;
      try (intros [= <-]; apply only_adds_reject).
    + destruct (fs !! parent dest) as [[d|]|] eqn:Hp;
        intros [= <-]; try apply only_adds_reject.
      apply only_adds_insert; [by rewrite Hd | by rewrite Hd | done].
    + destruct (fs !! parent dest) as [[d|]|] eqn:Hp;
        intros [= <-]; try apply only_adds_reject.
      apply only_adds_insert; [by rewrite Hd | by rewrite Hd | done].
Qed.

Lemma forEach_invariant (f : string -> state -> option state)
    (I : state -> Prop) (items : list string) :
  (forall c st, c ∈ items -> I st -> exists st', f c st = Some st' /\ I st') ->
  forall st, I st -> exists st', forEach f items st = Some st' /\ I st'.
Proof.
  induction items as [|c items IH]; intros Hf st Hst; cbn [forEach]; [by eauto|].
  destruct (Hf c st) as (st1 & -> & Hst1); [by left | done |].
  apply IH; [|done]. intros c' st' Hc'. apply Hf. by right.
Qed.

Lemma mkdir_inserts (dest : list string) (fs fs1 : fsys) :
  mkdir dest fs = inr fs1 -> fs1 = <[dest := Dir]> fs.
Proof.
  unfold mkdir. destruct (fs !! dest); [done|].
  destruct (fs !! parent dest) as [[]|]; congruence.
Qed.

Lemma copyFile_inserts (src dest : list string) (fs fs1 : fsys) :
  copyFile src dest fs = inr fs1 -> exists data, fs1 = <[dest := File data]> fs.
Proof.
  unfold copyFile. destruct (fs !! src) as [[data|]|]; [|done|done].
  intros Hcp. exists data.
  destruct (fs !! dest) as [[]|]; [| done |];
    destruct (fs !! parent dest) as [[]|]; congruence.
Qed.

Lemma not_prefix_ne (dest p : list string) : ~ dest `prefix_of` p -> dest <> p.
Proof. intros Hp ->. by apply Hp. Qed.

(** A call of [copyDirHelp] whose source and destination lie apart
    returns once the fuel exceeds the depth of the source, and touches
    nothing outside the destination. *)
Lemma copyDirHelp_returns (fuel : nat) :
  forall (depth : nat) (src dest : list string) (fs : fsys)
         (rejected : list FsError),
    depth < fuel ->
    apart src dest ->
    (forall rel, is_Some (fs !! (src ++ rel)) -> length rel <= depth) ->
    exists st',
      copyDirHelp fuel src dest (fs, rejected) = Some st' /\
      (forall p, ~ dest `prefix_of` p -> st'.1 !! p = fs !! p).
Proof.
  induction fuel as [|fuel IH]; intros depth src dest fs rejected Hlt Hap Hdepth;
    [lia|].
  cbn [copyDirHelp]. destruct (isDirectory fs src).
  - destruct (mkdir dest fs) as [e|fs1] eqn:Hmk; [by eauto|].
    apply mkdir_inserts in Hmk as ->.
    assert (forall p, ~ dest `prefix_of` p -> <[dest := Dir]> fs !! p = fs !! p)
      as Hfs1.
    { intros p Hp. apply lookup_insert_ne. by apply not_prefix_ne. }
    destruct (readdir (<[dest := Dir]> fs) src) as [e|items] eqn:Hrd; [by eauto|].
    apply (forEach_invariant _
             (fun st => forall p, ~ dest `prefix_of` p -> st.1 !! p = fs !! p));
      [|done].
    intros c [fs2 rejected2] Hc Hfs2. cbn [fst] in Hfs2.
    assert (forall rel, ~ dest `prefix_of` (src ++ rel)) as Hsrc.
    { intros rel [k Hk]. by apply apart_no_common in Hk. }
    assert (0 < depth) as Hpos.
    { apply (elem_of_readdir _ _ _ Hrd) in Hc.
      rewrite Hfs1 in Hc by done. apply Hdepth in Hc. cbn in Hc. lia. }
    destruct (IH (pred depth) (src ++ [c]) (dest ++ [c]) fs2 rejected2)
      as (st' & Hrun & Hframe).
    { lia. }
    { by apply apart_children. }
    { intros rel. rewrite <- app_assoc, Hfs2 by done.
      intros Hrel%Hdepth. cbn in Hrel. lia. }
    exists st'. split; [done|]. intros p Hp.
    rewrite Hframe; [by apply Hfs2|].
    intros Hpre. apply Hp. etrans; [|exact Hpre]. by apply prefix_app_r.
  - destruct (copyFile src dest fs) as [e|fs1] eqn:Hcp; [by eauto|].
    apply copyFile_inserts in Hcp as [data ->].
    eexists. split; [done|]. intros p Hp.
    apply lookup_insert_ne. by apply not_prefix_ne.
Qed.

(** X12: [copyDir] from a source to a destination that lies apart from
    it returns (the fuel exceeding the height of the file system) and
    takes nothing away, whatever the two hold (a missing source, a
    missing or a populated destination) and however many of its copies
    are rejected: every path that existed still exists, every directory
    is still a directory (no file is written over one), earlier
    rejections stay listed, a well-formed file system stays well formed,
    and nothing changes outside the destination, nor at the destination
    directory itself, which [copyDir] never creates. *)
Theorem copyDir_never_deletes
    (fuel : nat) (srcDirectory destDir : list string) (st : state) :
  apart srcDirectory destDir ->
  height st.1 < fuel ->
  exists st',
    copyDir fuel srcDirectory destDir st = Some st' /\
    (forall p, is_Some (st.1 !! p) -> is_Some (st'.1 !! p)) /\
    (forall p, st.1 !! p = Some Dir -> st'.1 !! p = Some Dir) /\
    st.2 `prefix_of` st'.2 /\
    (wf st.1 -> wf st'.1) /\
    (forall p, ~ destDir `prefix_of` p -> st'.1 !! p = st.1 !! p) /\
    st'.1 !! destDir = st.1 !! destDir.
Proof.
  destruct st as [fs rejected]. cbn [fst snd]. intros Hap Hfuel.
  assert (exists st',
            copyDir fuel srcDirectory destDir (fs, rejected) = Some st' /\
            (forall p, p = destDir \/ ~ destDir `prefix_of` p ->
                       st'.1 !! p = fs !! p)) as (st' & Hrun & Hframe).
  { unfold copyDir.
    destruct (readdir fs srcDirectory) as [e|items] eqn:Hrd; [by eauto|].
    apply (forEach_invariant _
             (fun st => forall p, p = destDir \/ ~ destDir `prefix_of` p ->
                                  st.1 !! p = fs !! p));
      [|done].
    intros c [fs2 rejected2] Hc Hfs2. cbn [fst] in Hfs2.
    assert (forall rel, ~ destDir `prefix_of` (srcDirectory ++ rel)) as Hsrc.
    { intros rel [k Hk]. by apply apart_no_common in Hk. }
    destruct (copyDirHelp_returns fuel (pred (height fs)) (srcDirectory ++ [c])
                (destDir ++ [c]) fs2 rejected2) as (st' & Hrun & Hframe).
    { lia. }
    { by apply apart_children. }
    { intros rel. rewrite <- app_assoc, Hfs2 by (right; apply Hsrc).
      intros Hrel%height_bound. rewrite length_app in Hrel. cbn in Hrel. lia. }
    exists st'. split; [done|]. intros p Hp.
    rewrite Hframe; [by apply Hfs2|].
    destruct Hp as [->|Hp]; [apply prefix_snoc_not|].
    intros Hpre. apply Hp. etrans; [|exact Hpre]. by apply prefix_app_r. }
  exists st'. split; [done|].
  assert (only_adds (fs, rejected) st') as (Hkeep & Hdir & Hrej & Hwf).
  { revert Hrun. unfold copyDir.
    destruct (readdir fs srcDirectory) as [e|items].
    - intros [= <-]. apply only_adds_reject.
    - intros Hrun. eapply (forEach_only_adds _ items); [|exact Hrun].
      intros c st1 st2. apply copyDirHelp_only_adds. }
  split_and!; [done | done | done | done | |].
  - intros p Hp. apply Hframe. by right.
  - apply Hframe. by left.
Qed.

Lemma copyDir_never_deletes_witness :
  exists st',
    copyDir 3 ["images"] ["out"] (images_and_out, []) = Some st' /\
    (forall p, is_Some (images_and_out !! p) -> is_Some (st'.1 !! p)) /\
    (forall p, images_and_out !! p = Some Dir -> st'.1 !! p = Some Dir) /\
    [] `prefix_of` st'.2 /\
    (wf images_and_out -> wf st'.1) /\
    (forall p, ~ ["out"] `prefix_of` p -> st'.1 !! p = images_and_out !! p) /\
    st'.1 !! ["out"] = images_and_out !! ["out"].
Proof.
  refine (copyDir_never_deletes 3 ["images"] ["out"] (images_and_out, []) _ _).
  - split; intros [k Hk]; discriminate.
  - vm_compute. lia.
Defined.

(** ** The example site *)

Section SiteFacts.

Variable PagePath : Type.
Variable PagePath_toString : PagePath -> string.
Variable Date : Type.
Variable ArticleMetadata : Type.
Variable article_draft : ArticleMetadata -> bool.
Variable article_title : ArticleMetadata -> string.
Variable article_description : ArticleMetadata -> string.
Variable article_author_name : ArticleMetadata -> string.
Variable article_published : ArticleMetadata -> Date.
Variable OtherMetadata : Type.

Local Abbreviation Page := (Main.Page PagePath ArticleMetadata OtherMetadata).
Local Abbreviation metadataToRssItem :=
  (Main.metadataToRssItem PagePath PagePath_toString Date ArticleMetadata
     article_draft article_title article_description article_author_name
     article_published OtherMetadata).
Local Abbreviation metadataToSitemapEntry :=
  (Main.metadataToSitemapEntry PagePath PagePath_toString ArticleMetadata
     article_draft OtherMetadata).
Local Abbreviation update := (Main.update PagePath).
Local Abbreviation updates := (Main.updates PagePath).
Local Abbreviation ToggleMobileMenu := (Main.ToggleMobileMenu PagePath).

(** X13: the site and its feed agree on drafts.  Every page that gets an
    RSS item is listed in the sitemap under the url of the item, and
    every sitemap entry comes from a page that is not a draft article and
    carries no modification date; a draft article gets no RSS item. *)
Theorem rss_items_are_listed_in_the_sitemap (siteMetadata : list Page) :
  (forall page item,
     In page siteMetadata ->
     metadataToRssItem page = Some item ->
     In {| Main.sitemap_path := Main.url Date item; Main.lastMod := None |}
       (metadataToSitemapEntry siteMetadata)) /\
  (forall entry,
     In entry (metadataToSitemapEntry siteMetadata) ->
     Main.lastMod entry = None /\
     exists page,
       In page siteMetadata /\
       Main.sitemap_path entry = PagePath_toString (Main.path _ _ _ page) /\
       forall article,
         Main.frontmatter _ _ _ page = Main.Article _ _ article ->
         article_draft article = false) /\
  (forall page article,
     Main.frontmatter _ _ _ page = Main.Article _ _ article ->
     article_draft article = true ->
     metadataToRssItem page = None).
Proof.
  unfold Main.metadataToRssItem, Main.metadataToSitemapEntry. split_and!.
  - intros page item Hin Hitem. apply in_map_iff. exists page.
    destruct (Main.frontmatter _ _ _ page) as [article|other] eqn:Hf; [|done].
    destruct (article_draft article) eqn:Hd; [done|].
    injection Hitem as <-. split; [done|].
    apply filter_In. split; [done|]. by rewrite Hf, Hd.
  - intros entry (page & <- & Hin)%in_map_iff.
    apply filter_In in Hin as [Hin Hkeep]. split; [done|].
    exists page. split_and!; [done | done |].
    intros article Hf. rewrite Hf in Hkeep. by apply negb_true_iff.
  - intros page article -> ->. done.
Qed.

Lemma updates_snoc (msgs : list (Main.Msg PagePath)) (msg : Main.Msg PagePath)
    (model : Main.Model) :
  updates (msgs ++ [msg]) model = (update msg (updates msgs model)).1.
Proof. unfold Main.updates. by rewrite foldl_app. Qed.

(** X14: the mobile menu.  Toggling [n] times from any model leaves the
    menu as it was when [n] is even and flipped when [n] is odd; a page
    change closes the menu whatever happened before it; and no message
    ever makes [update] issue a command. *)
Theorem update_toggles_and_closes_the_menu (model : Main.Model) :
  (forall n,
     updates (replicate n ToggleMobileMenu) model =
       {| Main.showMobileMenu :=
            if Nat.even n then Main.showMobileMenu model
            else negb (Main.showMobileMenu model) |}) /\
  (forall msgs page,
     updates (msgs ++ [Main.OnPageChange PagePath page]) model =
       {| Main.showMobileMenu := false |}) /\
  (forall msg, (update msg model).2 = Main.Cmd_none).
Proof.
  split_and!.
  - intros n. revert model. induction n as [|n IH]; intros model.
    + by destruct model.
    + change (updates (replicate (S n) ToggleMobileMenu) model)
        with (updates (replicate n ToggleMobileMenu)
                {| Main.showMobileMenu := negb (Main.showMobileMenu model) |}).
      rewrite IH, Nat.even_succ, <- Nat.negb_even. cbn [Main.showMobileMenu].
      destruct (Nat.even n); cbn [negb]; [done|].
      by rewrite negb_involutive.
  - intros msgs page. by rewrite updates_snoc.
  - by intros [page|].
Qed.

End SiteFacts.

Lemma rss_items_are_listed_in_the_sitemap_witness :
  In {| Main.sitemap_path := "blog/hello"; Main.lastMod := None |}
    (Main.metadataToSitemapEntry string (fun p => p) (bool * string) fst unit
       [Main.sample_site_page "blog/draft" true "Draft";
        Main.sample_site_page "blog/hello" false "Hello"]).
Proof.
  refine (proj1 (rss_items_are_listed_in_the_sitemap string (fun p => p) nat
                   (bool * string) fst snd snd snd (fun _ => 0) unit
                   [Main.sample_site_page "blog/draft" true "Draft";
                    Main.sample_site_page "blog/hello" false "Hello"])
            (Main.sample_site_page "blog/hello" false "Hello")
            {| Main.title := "Hello"; Main.description := "Hello";
               Main.url := "blog/hello"; Main.categories := [];
               Main.author := "Hello"; Main.pubDate := Main.RssDate nat 0;
               Main.content := None |} _ _).
  - right. left. reflexivity.
  - reflexivity.
Defined.

(** ** The build pipeline *)

Lemma replace_stubs_from_skip (a rest : string) :
  replace_stubs_from (String.length a) (a +:+ rest) = replace_stubs_from 0 rest.
Proof. induction a as [|c a IH]; [by destruct rest | exact IH]. Qed.

Lemma match_stub_at_stub (c1 c2 : ascii) (rest : string) :
  is_line_terminator c1 = false ->
  is_line_terminator c2 = false ->
  match_stub (stubCall +:+ String c1 (stubArgument +:+ String c2 (")" +:+ rest))) =
    Some rest.
Proof.
  intros H1 H2. unfold match_stub.
  rewrite (proj2 (strip_prefix_Some stubCall _ _) eq_refl), H1.
  rewrite (proj2 (strip_prefix_Some stubArgument _ _) eq_refl), H2.
  by apply strip_prefix_Some.
Qed.

Lemma replace_stubs_from_at_stub (s rest : string) :
  match_stub s = Some rest ->
  replace_stubs_from 0 s =
    "return x" +:+
    replace_stubs_from (stub_length - 1)
      (match s with "" => "" | String _ s' => s' end).
Proof.
  destruct s as [|c s']; [done|].
  intros Hm. cbn [replace_stubs_from]. by rewrite Hm.
Qed.

Lemma stub_tail_skipped (c1 c2 : ascii) (rest : string) :
  replace_stubs_from (stub_length - 1)
    (match stubCall +:+ String c1 (stubArgument +:+ String c2 (")" +:+ rest)) with
     | "" => ""
     | String _ s' => s'
     end) =
  replace_stubs_from 0 rest.
Proof.
  set (tail := "eturn $elm$json$Json$Encode$string(" +:+
               String c1 (stubArgument +:+ String c2 ")")).
  assert (stub_length - 1 = String.length tail) as -> by (vm_compute; reflexivity).
  rewrite <- (replace_stubs_from_skip tail rest).
  by f_equal.
Qed.

(** X15: the patch of the compiled support program.  A text in front of
    which no match of the stub starts is kept as it is, the patch going on
    behind it; a stub (the call, any character that is no line
    terminator, the argument, any such character, a closing parenthesis)
    is replaced by [return x], the patch going on behind it.  So a program
    without the stub is written back unchanged and every stub is
    replaced, from left to right. *)
Theorem replace_stubs_replaces_each_stub :
  (forall pre rest,
     stub_starts_within (String.length pre) (pre +:+ rest) = false ->
     replace_stubs (pre +:+ rest) = pre +:+ replace_stubs rest) /\
  (forall c1 c2 rest,
     is_line_terminator c1 = false ->
     is_line_terminator c2 = false ->
     replace_stubs
       (stubCall +:+ String c1 (stubArgument +:+ String c2 (")" +:+ rest))) =
       "return x" +:+ replace_stubs rest) /\
  (forall elmFileContent,
     stub_starts_within (String.length elmFileContent) elmFileContent = false ->
     replace_stubs elmFileContent = elmFileContent).
Proof.
  assert (forall pre rest,
            stub_starts_within (String.length pre) (pre +:+ rest) = false ->
            replace_stubs (pre +:+ rest) = pre +:+ replace_stubs rest) as Hkeep.
  { unfold replace_stubs. induction pre as [|c pre IH]; intros rest; [done|].
    cbn [String.length stub_starts_within String.append replace_stubs_from].
    destruct (match_stub (String c (pre +:+ rest))); [done|].
    intros H. by rewrite IH. }
  split_and!.
  - exact Hkeep.
  - intros c1 c2 rest H1 H2. unfold replace_stubs.
    rewrite (replace_stubs_from_at_stub _ _ (match_stub_at_stub c1 c2 rest H1 H2)).
    by rewrite stub_tail_skipped.
  - intros text H. rewrite <- (str_app_nil_r text) at 1.
    rewrite Hkeep by (by rewrite str_app_nil_r). by rewrite str_app_nil_r.
Qed.

Lemma replace_stubs_replaces_each_stub_witness :
  replace_stubs
    ("x=" +:+
     stubCall +:+ String "'" (stubArgument +:+ String "'" (")" +:+ ";y"))) =
    "x=" +:+ "return x" +:+ ";y".
Proof.
  destruct replace_stubs_replaces_each_stub as (Hkeep & Hstub & Hnone).
  rewrite Hkeep by reflexivity.
  rewrite Hstub by reflexivity.
  rewrite Hnone by reflexivity.
  reflexivity.
Defined.

Section PipelineFacts.

Variable path_join : string -> string -> string.
Variable ELM_FILE_PATH : string.
Variable indexTemplate : string.

Local Abbreviation run' := (run path_join ELM_FILE_PATH indexTemplate).

Lemma spawnElmMake_start_then_close
    (elmEntrypointPath outputPath : string) (cwd : option string)
    (env : ElmMakeRun) :
  spawnElmMake path_join elmEntrypointPath outputPath cwd env =
    spawnElmMake_start path_join elmEntrypointPath outputPath cwd (existsBefore env)
    ++ on_close (closeCode env) (existsAfter env).
Proof. unfold spawnElmMake, spawnElmMake_start. by rewrite <- app_assoc. Qed.

Lemma StartElmApp_not_Proc (events : list ProcEvent) :
  StartElmApp ∉ map Proc events.
Proof. intros (e & He & _)%list_elem_of_fmap. done. Qed.

(** X16: what has to go well before the renderer is started.  [run]
    calls [runElmApp] exactly when code generation resolved, the compiler
    of the support program closed with code zero and left its output, and
    the compiled program could be read and written back patched.  In
    every other case the last thing that happens is [process.exit(1)].
    When the renderer is started the six helper calls of [copyAssets]
    have been made, none of them awaited (nothing need have been copied
    yet), and the compiler of the site has just been spawned: the start
    does not wait for that compiler to close. *)
Theorem run_starts_the_renderer_iff (env : RunEnv) :
  (StartElmApp ∈ run' env <->
   codegenResolves env = true /\
   closeCode (cliRun env) = Some 0%Z /\
   existsAfter (cliRun env) = true /\
   is_Some (compiledCli env) /\
   writeBackResolves env = true) /\
  (StartElmApp ∉ run' env -> last (run' env) = Some (Proc (EvProcessExit 1))) /\
  (StartElmApp ∈ run' env ->
   exists before elmFileContent,
     compiledCli env = Some elmFileContent /\
     run' env =
       before ++
       WriteBack ELM_FILE_PATH (replace_stubs elmFileContent)
       :: copyAssets indexTemplate ++
       map Proc (spawnElmMake_start path_join "src/Main.elm" "dist/elm.js" None
                   (staleElmJs env)) ++
       [StartElmApp] /\
     last (map Proc (spawnElmMake_start path_join "src/Main.elm" "dist/elm.js"
                       None (staleElmJs env))) =
       Some (Proc (EvSpawn "elm-optimize-level-2"
                     ["src/Main.elm"; "--output"; "dist/elm.js"] None))).
Proof.
  unfold run.
  set (compile := spawnElmMake path_join "../../src/Main.elm" "elm.js"
                    (Some "./elm-stuff/elm-pages") (cliRun env)).
  pose proof (StartElmApp_not_Proc compile) as Hnotproc.
  assert (succeeded compile = true <->
          closeCode (cliRun env) = Some 0%Z /\ existsAfter (cliRun env) = true)
    as Hsucc.
  { subst compile. unfold spawnElmMake, on_close, succeeded.
    rewrite !app_assoc.
    unfold code_is_zero. destruct (closeCode (cliRun env)) as [c|].
    - destruct (Z.eqb_spec c 0) as [->|Hc]; cbn [andb].
      + destruct (existsAfter (cliRun env)).
        * rewrite last_snoc. by split.
        * rewrite last_snoc2. split; [done | by intros [_ ?]].
      + rewrite last_snoc2. split; [done|]. intros [[= ->] _]. done.
    - cbn [andb]. rewrite last_snoc2. split; [done | by intros [? _]]. }
  assert (succeeded compile = false ->
          last (map Proc compile) = Some (Proc (EvProcessExit 1))) as Hfail.
  { subst compile. unfold spawnElmMake, on_close, succeeded.
    rewrite !app_assoc.
    destruct (code_is_zero (closeCode (cliRun env)) && existsAfter (cliRun env)).
    - by rewrite last_snoc.
    - intros _. rewrite map_app. cbn [map].
      by rewrite last_snoc2. }
  destruct (codegenResolves env); cbn [negb].
  2:{ split_and!.
      - split; [|by intros [? _]].
        intros Hin. repeat (apply elem_of_cons in Hin as [Hin|Hin]; [done|]).
        by apply elem_of_nil in Hin.
      - done.
      - intros Hin. repeat (apply elem_of_cons in Hin as [Hin|Hin]; [done|]).
        by apply elem_of_nil in Hin. }
  destruct (succeeded compile) eqn:Hs; cbn [negb].
  2:{ assert (StartElmApp ∉ [Call (HTryMkdir "dist"); Generate] ++ map Proc compile ++ [])
        as Hnot.
      { rewrite app_nil_r. intros [Hin|Hin]%elem_of_app; [|done].
        repeat (apply elem_of_cons in Hin as [Hin|Hin]; [done|]).
        by apply elem_of_nil in Hin. }
      split_and!.
      - split; [intros Hin; by destruct (Hnot Hin)|]. intros (_ & Hc & He & _).
        discriminate (proj2 Hsucc (conj Hc He)).
      - intros _. rewrite app_nil_r, last_app, (Hfail eq_refl). done.
      - intros Hin. by destruct (Hnot Hin). }
  destruct (proj1 Hsucc eq_refl) as [Hcode Hexists].
  destruct (compiledCli env) as [elmFileContent|].
  2:{ assert (StartElmApp ∉ [Call (HTryMkdir "dist"); Generate] ++ map Proc compile ++
                ReadFile ELM_FILE_PATH :: unhandledRejection) as Hnot.
      { intros [Hin|Hin]%elem_of_app.
        - repeat (apply elem_of_cons in Hin as [Hin|Hin]; [done|]).
          by apply elem_of_nil in Hin.
        - apply elem_of_app in Hin as [Hin|Hin]; [done|].
          repeat (apply elem_of_cons in Hin as [Hin|Hin]; [done|]).
          by apply elem_of_nil in Hin. }
      split_and!.
      - split; [intros Hin; by destruct (Hnot Hin)|].
        intros (_ & _ & _ & [? ?] & _). done.
      - intros _. by rewrite !last_app.
      - intros Hin. by destruct (Hnot Hin). }
  destruct (writeBackResolves env); cbn [negb].
  2:{ assert (StartElmApp ∉ [Call (HTryMkdir "dist"); Generate] ++ map Proc compile ++
                ReadFile ELM_FILE_PATH ::
                WriteBack ELM_FILE_PATH (replace_stubs elmFileContent) ::
                unhandledRejection) as Hnot.
      { intros [Hin|Hin]%elem_of_app.
        - repeat (apply elem_of_cons in Hin as [Hin|Hin]; [done|]).
          by apply elem_of_nil in Hin.
        - apply elem_of_app in Hin as [Hin|Hin]; [done|].
          repeat (apply elem_of_cons in Hin as [Hin|Hin]; [done|]).
          by apply elem_of_nil in Hin. }
      split_and!.
      - split; [intros Hin; by destruct (Hnot Hin)|].
        by intros (_ & _ & _ & _ & ?).
      - intros _. by rewrite !last_app.
      - intros Hin. by destruct (Hnot Hin). }
  assert (StartElmApp ∈
            [Call (HTryMkdir "dist"); Generate] ++ map Proc compile ++
            ReadFile ELM_FILE_PATH ::
            WriteBack ELM_FILE_PATH (replace_stubs elmFileContent) ::
            copyAssets indexTemplate ++
            map Proc (spawnElmMake_start path_join "src/Main.elm" "dist/elm.js"
                        None (staleElmJs env)) ++ [StartElmApp]) as Hin.
  { apply elem_of_app. right. apply elem_of_app. right.
    do 2 (apply elem_of_cons; right).
    apply elem_of_app. right. apply elem_of_app. right.
    apply elem_of_cons. by left. }
  split_and!.
  - split; [by eauto|done].
  - intros Hnot. by destruct (Hnot Hin).
  - intros _.
    exists ([Call (HTryMkdir "dist"); Generate] ++ map Proc compile ++
            [ReadFile ELM_FILE_PATH]), elmFileContent.
    split_and!; [done | by rewrite <- !app_assoc |].
    unfold spawnElmMake_start. rewrite map_app. cbn [map]. apply last_snoc.
Qed.

End PipelineFacts.

Lemma run_starts_the_renderer_iff_witness :
  StartElmApp ∈
    run (fun dir file => dir +:+ "/" +:+ file) "elm-stuff/elm-pages/elm.js" ""
      {| codegenResolves := true;
         cliRun := {| existsBefore := true; closeCode := Some 0%Z;
                      existsAfter := true |};
         compiledCli := Some "var x;";
         writeBackResolves := true;
         staleElmJs := false |}.
Proof.
  apply (run_starts_the_renderer_iff (fun dir file => dir +:+ "/" +:+ file)
           "elm-stuff/elm-pages/elm.js" "").
  by cbn.
Defined.


Lemma truthy_spec (text : string) : truthy text = true <-> text <> "".
Proof.
  unfold truthy. destruct (String.eqb_spec text ""); cbn; split; congruence.
Qed.

Lemma shellCommand_exit (command : string) (result : ExecResult) :
  ShellExit 1 ∈ shellCommand command result <->
  execRejects result = true \/ execStderr result <> "".
Proof.
  unfold shellCommand. rewrite list_elem_of_In.
  pose proof (truthy_spec (execStderr result)) as Hs.
  destruct (execRejects result); cbn [In].
  { split; [by left | tauto]. }
  rewrite in_app_iff.
  destruct (truthy (execStderr result)); cbn [In].
  - split; [intros _; right; by apply Hs | tauto].
  - split.
    + intros [?|[Hin|[]]]; [done|].
      destruct (truthy (execStdout result)); cbn [In] in Hin;
        by repeat destruct Hin as [Hin|Hin].
    + intros [?|Hne]; [done|]. by apply Hs in Hne.
Qed.

(** X17: what follows the compile of the site.  The artifact is made a
    module and the minifier is then run on [dist/elm.js]; when the
    artifact cannot be read the minifier is not run.  The process is
    ended with exit code 1 exactly when the artifact could not be read,
    the minifier failed, or the minifier wrote anything to its standard
    error, even though it succeeded. *)
Theorem compileElm_then_minifies_or_exits
    (elmPath : string) (files : gmap string string) (terser : ExecResult) :
  (ShellExit 1 ∈ (compileElm_then elmPath files terser).2 <->
   files !! elmPath = None \/
   execRejects terser = true \/
   execStderr terser <> "") /\
  (forall elmEs3,
     files !! elmPath = Some elmEs3 ->
     (compileElm_then elmPath files terser).1 =
       Some (<[elmPath := elmToEsm_text elmEs3]> files) /\
     hd_error (compileElm_then elmPath files terser).2 =
       Some (Exec (terserCommand "dist/elm.js"))) /\
  (files !! elmPath = None ->
   (compileElm_then elmPath files terser).1 = None /\
   forall command, Exec command ∉ (compileElm_then elmPath files terser).2).
Proof.
  unfold compileElm_then, elmToEsm.
  destruct (files !! elmPath) as [elmEs3|]; cbn [fst snd].
  - split_and!.
    + unfold runTerser. rewrite shellCommand_exit.
      split; [by right|]. by intros [?|?].
    + by intros ? [= <-].
    + done.
  - split_and!.
    + split; [by left|]. intros _. apply list_elem_of_In. cbn. tauto.
    + done.
    + intros _. split; [done|]. intros command Hin.
      apply list_elem_of_In in Hin. cbn in Hin.
      by repeat destruct Hin as [Hin|Hin].
Qed.

(** ** Witnesses of the further facts *)

Lemma unknown_tag_ends_the_run_witness :
  dispatch "1.0" sample_seo sample_manifest sample_dirname initialWorld
    ([sample_log] ++
     {| command := None; tag := Some "Success"; value := None; args := [] |}
     :: [sample_errors]) =
    (console_log
       (CMessage {| command := None; tag := Some "Success"; value := None;
                    args := [] |})
       (console_log (CValue (value sample_log)) initialWorld),
     Throw "Unknown port tag.") /\
  runElmApp "1.0" sample_seo sample_manifest sample_dirname
    ([sample_log] ++
     {| command := None; tag := Some "Success"; value := None; args := [] |}
     :: [sample_errors]) =
    (console_log
       (CMessage {| command := None; tag := Some "Success"; value := None;
                    args := [] |})
       (console_log (CValue (value sample_log)) initialWorld),
     1%Z).
Proof.
  apply (unknown_tag_ends_the_run "1.0" sample_seo sample_manifest sample_dirname
           [sample_log] [sample_errors]
           {| command := None; tag := Some "Success"; value := None; args := [] |});
    reflexivity.
Defined.

Lemma run_writes_paths_under_dist_witness :
  (exists rest, "dist/blog/post-1/index.html" = "dist/" +:+ rest) /\
  exists fromElm,
    fromElm ∈ [sample_log; pageProgress (sample_page "blog/post-1")] /\
    command fromElm <> Some "log" /\
    ((tag fromElm = Some "InitialData" /\
      exists manifest files rest,
        args fromElm = PInitialData manifest files :: rest /\
        (("dist/blog/post-1/index.html" = "dist/manifest.json" /\
          wrapHtml "1.0" sample_seo (sample_page "blog/post-1") =
            stringify (sample_manifest manifest)) \/
         exists f, f ∈ files /\
                   "dist/blog/post-1/index.html" = "dist/" +:+ GenFile.path f /\
                   wrapHtml "1.0" sample_seo (sample_page "blog/post-1") =
                     GenFile.content f)) \/
     (tag fromElm = Some "PageProgress" /\
      exists page rest,
        args fromElm = PPage page :: rest /\
        (("dist/blog/post-1/index.html" =
            "dist/" +:+ normalizedRoute (Arg.route page) +:+ "/index.html" /\
          wrapHtml "1.0" sample_seo (sample_page "blog/post-1") =
            wrapHtml "1.0" sample_seo page) \/
         ("dist/blog/post-1/index.html" =
            "dist/" +:+ normalizedRoute (Arg.route page) +:+ "/content.json" /\
          wrapHtml "1.0" sample_seo (sample_page "blog/post-1") =
            stringify (contentJsonObject page))))).
Proof.
  apply (run_writes_paths_under_dist "1.0" sample_seo sample_manifest
           sample_dirname [sample_log; pageProgress (sample_page "blog/post-1")]
           "dist/blog/post-1/index.html"
           (wrapHtml "1.0" sample_seo (sample_page "blog/post-1"))).
  apply list_elem_of_In. left. reflexivity.
Defined.
